(** * Count-Min Sketch (shenwei356/countminsketch): a shallow embedding

    The sketch of [countminsketch] (the matrix variant: [count [][]uint64])
    is embedded function by function.  Go's [uint] and [uint64] are taken
    at 64 bits (amd64) and written as [Z] with the wrap-around spelled out;
    [float64] is the binary64 of [Floats];
    byte slices are [list byte]; a runtime panic is an explicit outcome of
    the [run] monad; sketches live in a heap indexed by pointers, because
    [Merge] receives two pointers that may be the same object. *)

From Stdlib Require Import ZArith List Lia Floats.
From stdpp Require Import base option list strings gmap.
From coqutil Require Import Byte Word.LittleEndianList.

Local Open Scope Z_scope.

(** ** Go runtime: machine integers, panics, loops *)

Definition wrap64 (z : Z) : Z := z mod 2 ^ 64.
Definition wrap_int64 (z : Z) : Z := (z + 2 ^ 63) mod 2 ^ 64 - 2 ^ 63.

Definition is_uint64 (z : Z) : Prop := 0 <= z < 2 ^ 64.

Inductive panic : Set :=
| DivideByZero
| IndexOutOfRange
| NilDereference.

Inductive run (A : Type) : Type :=
| Done (a : A)
| Panicked (p : panic).
Arguments Done {A} a.
Arguments Panicked {A} p.

#[global] Instance run_ret : MRet run := fun A a => Done a.
#[global] Instance run_bind : MBind run := fun A B k m =>
  match m with
  | Done a => k a
  | Panicked p => Panicked p
  end.

(** [for i := uint(a); i < a+n; i++ { body }] *)
Fixpoint for_from {S : Type} (i : nat) (n : nat)
    (body : nat -> S -> run S) (st : S) : run S :=
  match n with
  | O => Done st
  | Datatypes.S n' => st' ← body i st; for_from (Datatypes.S i) n' body st'
  end.

Definition for_upto {S : Type} (n : Z) (body : nat -> S -> run S) (st : S)
    : run S :=
  for_from 0 (Z.to_nat n) body st.

(** [for r, c := range l { body }] *)
Fixpoint for_range_from {A S : Type} (r : nat) (l : list A)
    (body : nat -> A -> S -> run S) (st : S) : run S :=
  match l with
  | [] => Done st
  | c :: l' => st' ← body r c st; for_range_from (Datatypes.S r) l' body st'
  end.

Definition for_range {A S : Type} (l : list A)
    (body : nat -> A -> S -> run S) (st : S) : run S :=
  for_range_from 0 l body st.

(** [l[i]] with the bounds check of the runtime. *)
Definition index {A} (l : list A) (i : nat) : run A :=
  match l !! i with
  | Some x => Done x
  | None => Panicked IndexOutOfRange
  end.

(** [l[i] = x] with the bounds check of the runtime. *)
Definition store {A} (l : list A) (i : nat) (x : A) : run (list A) :=
  match l !! i with
  | Some _ => Done (<[i := x]> l)
  | None => Panicked IndexOutOfRange
  end.

(** [x % y] on unsigned operands. *)
Definition umod (x y : Z) : run Z :=
  if y =? 0 then Panicked DivideByZero else Done (x mod y).

(** A loop whose body may leave the function with an error
    ([if err != nil { return 0, err }]). *)
Fixpoint for_from_try {S E : Type} (i : nat) (n : nat)
    (body : nat -> S -> run (S * option E)) (st : S) : run (S * option E) :=
  match n with
  | O => Done (st, None)
  | Datatypes.S n' =>
      '(st', err) ← body i st;
      match err with
      | Some e => Done (st', Some e)
      | None => for_from_try (Datatypes.S i) n' body st'
      end
  end.

(** [make([]uint64, n)], as a total function.  The runtime panics
    ([makeslice: len out of range]) when the length is beyond what it
    can address, and the program stops when the memory is not there;
    the embedding leaves both out.  The theorems on functions that size
    an allocation by an argument or by a decoded header are therefore
    stated for dimensions that are [allocatable] (below); a sketch
    that holds its [d] rows of [w] cells has these allocations behind
    it. *)
Definition make_uint64s (n : Z) : list Z := replicate (Z.to_nat n) 0.

(** ** hash/fnv: the 64-bit FNV-1 hash *)

Module fnv.
Definition offset64 : Z := 14695981039346656037.
Definition prime64 : Z := 1099511628211.

Definition New64 : Z := offset64.
Definition Reset (h : Z) : Z := offset64.

Definition Write (h : Z) (data : list byte) : Z :=
  fold_left
    (fun hash c => Z.lxor (wrap64 (hash * prime64)) (byte.unsigned c))
    data h.

(** [Sum(in)] appends the eight bytes of the state, high byte first. *)
Definition Sum (h : Z) (b : list byte) : list byte :=
  b ++ rev (le_split 8 h).
End fnv.

(** ** encoding/binary, big endian, and the in-memory stream *)

Inductive error : Set :=
| EOF
| ErrUnexpectedEOF
| errorString (msg : string)
| Errorf (format : string) (arg : Z).

Module binary.
Definition Uint32 (b : list byte) : Z := le_combine (rev (take 4 b)).
Definition Uint64 (b : list byte) : Z := le_combine (rev (take 8 b)).
Definition PutUint64 (v : Z) : list byte := rev (le_split 8 v).

(** The bytes of a [[]uint64]. *)
Definition PutUint64s (vs : list Z) : list byte :=
  flat_map PutUint64 vs.

(** [binary.Size] of a [uint64] and of a [[]uint64]. *)
Definition Size_uint64 : Z := 8.
Definition Size_uint64s (vs : list Z) : Z := 8 * Z.of_nat (length vs).

(** Decoding of a buffer that holds [n] values of eight bytes. *)
Fixpoint Uint64s (n : nat) (bs : list byte) : list Z :=
  match n with
  | O => []
  | Datatypes.S n' => Uint64 bs :: Uint64s n' (drop 8 bs)
  end.
End binary.

(** [io.Writer] and the part of [io.Reader] that [binary.Read] uses
    ([io.ReadFull]: exactly [n] bytes, or an error). *)
Class Writer (W : Type) := io_Write : W -> list byte -> W * option error.
Class Reader (R : Type) :=
  io_ReadFull : R -> nat -> R * list byte * option error.

(** [bytes.Buffer]: the unread bytes.  Writing appends and cannot fail;
    reading takes from the front. *)
Definition Buffer : Type := list byte.

#[global] Instance Buffer_Writer : Writer Buffer :=
  fun buf p => (buf ++ p, None).

#[global] Instance Buffer_Reader : Reader Buffer := fun buf n =>
  if decide (n <= length buf)%nat then (drop n buf, take n buf, None)
  else match buf with
       | [] => (buf, [], Some EOF)
       | _ => ([], buf, Some ErrUnexpectedEOF)
       end.

Section binary_stream.
Context {W R : Type} `{!Writer W} `{!Reader R}.

(** [binary.Write(stream, binary.BigEndian, v)] for [v] a [uint64]
    and for [v] a [[]uint64]. *)
Definition binary_Write_uint64 (stream : W) (v : Z) : W * option error :=
  io_Write stream (binary.PutUint64 v).
Definition binary_Write_uint64s (stream : W) (vs : list Z)
    : W * option error :=
  io_Write stream (binary.PutUint64s vs).

(** [binary.Read(stream, binary.BigEndian, &v)]: the target is left as
    it was when the stream is too short. *)
Definition binary_Read_uint64 (stream : R) (v : Z) : R * Z * option error :=
  let '(stream', bs, err) := io_ReadFull stream 8 in
  match err with
  | Some e => (stream', v, Some e)
  | None => (stream', binary.Uint64 bs, None)
  end.
Definition binary_Read_uint64s (stream : R) (vs : list Z)
    : R * list Z * option error :=
  let '(stream', bs, err) := io_ReadFull stream (8 * length vs) in
  match err with
  | Some e => (stream', vs, Some e)
  | None => (stream', binary.Uint64s (length vs) bs, None)
  end.
End binary_stream.

(** ** The sketch *)

(** [hasher] is the state of the [hash.Hash64] the sketch owns. *)
Record CountMinSketch : Type := mkCountMinSketch {
  d : Z;
  w : Z;
  count : list (list Z);
  hasher : Z
}.

Definition set_count (s : CountMinSketch) (cnt : list (list Z))
    : CountMinSketch :=
  {| d := d s; w := w s; count := cnt; hasher := hasher s |}.
Definition set_hasher (s : CountMinSketch) (h : Z) : CountMinSketch :=
  {| d := d s; w := w s; count := count s; hasher := h |}.
Definition set_d (s : CountMinSketch) (v : Z) : CountMinSketch :=
  {| d := v; w := w s; count := count s; hasher := hasher s |}.
Definition set_w (s : CountMinSketch) (v : Z) : CountMinSketch :=
  {| d := d s; w := v; count := count s; hasher := hasher s |}.

(** Pointers to sketches and the heap they point into. *)
Definition loc : Type := nat.
Abbreviation heap := (gmap loc CountMinSketch).

Definition deref (h : heap) (p : loc) : run CountMinSketch :=
  match h !! p with
  | Some s => Done s
  | None => Panicked NilDereference
  end.

(** A method with a pointer receiver, run on the object [p] points to. *)
Definition call {A} (p : loc)
    (f : CountMinSketch -> run (A * CountMinSketch)) (h : heap)
    : run (A * heap) :=
  s ← deref h p;
  '(a, s') ← f s;
  Done (a, <[p := s']> h).

Definition errNew : error :=
  errorString
    "countminsketch: values of d and w should both be greater than 0".
Definition errDepth : error :=
  errorString "countminsketch: matrix depth must match".
Definition errWidth : error :=
  errorString "countminsketch: matrix width must match".

(** [New]: the sketch is allocated in the heap only when both
    dimensions are positive. *)
Definition New_rows (d0 w0 : Z) (cnt : list (list Z))
    : run (list (list Z)) :=
  for_upto d0 (fun r cnt => store cnt r (make_uint64s w0)) cnt.

Definition New (d0 w0 : Z) (h : heap)
    : run (option loc * option error * heap) :=
  if (d0 <=? 0) || (w0 <=? 0) then Done (None, Some errNew, h)
  else
    let s := {| d := d0; w := w0; count := []; hasher := fnv.New64 |} in
    cnt ← New_rows d0 w0 (replicate (Z.to_nat d0) []);
    let p := fresh (dom h) in
    Done (Some p, None, <[p := set_count s cnt]> h).

Definition D (s : CountMinSketch) : Z := d s.
Definition W (s : CountMinSketch) : Z := w s.

(** [baseHashes]: the hasher is reset, fed the key and read; its state
    stays in the sketch. *)
Definition baseHashes (key : list byte) (s : CountMinSketch)
    : Z * Z * CountMinSketch :=
  let h := fnv.Reset (hasher s) in
  let h := fnv.Write h key in
  let sum := fnv.Sum h [] in
  let upper := take 4 sum in
  let lower := take 4 (drop 4 sum) in
  let a := binary.Uint32 lower in
  let b := binary.Uint32 upper in
  (a, b, set_hasher s h).

Definition locations (key : list byte) (s : CountMinSketch)
    : run (list Z * CountMinSketch) :=
  let locs := make_uint64s (d s) in
  let '(a, b, s') := baseHashes key s in
  let ua := a in
  let ub := b in
  locs' ← for_upto (d s') (fun r locs =>
             c ← umod (wrap64 (ua + wrap64 (ub * Z.of_nat r))) (w s');
             store locs r c) locs;
  Done (locs', s').

(** [s.count[r][c]] and [s.count[r][c] = v]. *)
Definition cell (cnt : list (list Z)) (r : nat) (c : Z) : run Z :=
  row ← index cnt r;
  index row (Z.to_nat c).
Definition set_cell (cnt : list (list Z)) (r : nat) (c : Z) (v : Z)
    : run (list (list Z)) :=
  row ← index cnt r;
  row' ← store row (Z.to_nat c) v;
  store cnt r row'.

Definition Update (key : list byte) (amount : Z) (s : CountMinSketch)
    : run (unit * CountMinSketch) :=
  '(locs, s') ← locations key s;
  s'' ← for_range locs (fun r c s =>
          v ← cell (count s) r c;
          cnt ← set_cell (count s) r c (wrap64 (v + amount));
          Done (set_count s cnt)) s';
  Done (tt, s'').

Definition Estimate (key : list byte) (s : CountMinSketch)
    : run (Z * CountMinSketch) :=
  let min := 0 in
  '(locs, s') ← locations key s;
  min' ← for_range locs (fun r c min =>
           if decide (r = 0%nat) then cell (count s') r c
           else
             v ← cell (count s') r c;
             if v <? min then cell (count s') r c else Done min) min;
  Done (min', s').

(** [Merge]: [s] and [other] are pointers; every cell is read and
    written through them, so [s.Merge(s)] is covered.  The loop bounds
    [s.d] and [s.w] are not written by the body. *)
Definition Merge_cell (p q : loc) (i j : nat) (h : heap) : run heap :=
  s ← deref h p;
  other ← deref h q;
  x ← cell (count s) i (Z.of_nat j);
  y ← cell (count other) i (Z.of_nat j);
  cnt ← set_cell (count s) i (Z.of_nat j) (wrap64 (x + y));
  Done (<[p := set_count s cnt]> h).

Definition Merge (p q : loc) (h : heap) : run (option error * heap) :=
  s ← deref h p;
  other ← deref h q;
  if negb (d s =? d other) then Done (Some errDepth, h)
  else if negb (w s =? w other) then Done (Some errWidth, h)
  else
    h' ← for_upto (d s) (fun i h =>
           for_upto (w s) (fun j h => Merge_cell p q i j h) h) h;
    Done (None, h').

(** [CountMinSketchJSON], the struct [json.Unmarshal] fills. *)
Record CountMinSketchJSON : Type := mkCountMinSketchJSON {
  json_D : Z;
  json_W : Z;
  json_Count : list (list Z)
}.

(** [UnmarshalJSON]: [decoded] is what [json.Unmarshal(data, &j)]
    gave, an error or the filled struct. *)
Definition UnmarshalJSON (decoded : error + CountMinSketchJSON)
    (s : CountMinSketch) : option error * CountMinSketch :=
  match decoded with
  | inl err => (Some err, s)
  | inr j =>
      (None,
       {| d := json_D j; w := json_W j; count := json_Count j;
          hasher := fnv.New64 |})
  end.

Definition MarshalJSON (s : CountMinSketch) : CountMinSketchJSON :=
  {| json_D := d s; json_W := w s; json_Count := count s |}.

Section codec.
Context {Wr Rd : Type} `{!Writer Wr} `{!Reader Rd}.

(** The size that [WriteTo] and [ReadFrom] return. *)
Definition codec_size (s : CountMinSketch) (C : list Z) : Z :=
  wrap_int64
    (2 * binary.Size_uint64
     + wrap_int64 (wrap_int64 (d s) * binary.Size_uint64s C)).

Definition WriteTo (s : CountMinSketch) (stream : Wr)
    : run (Z * option error * Wr) :=
  let '(stream, err) := binary_Write_uint64 stream (wrap64 (d s)) in
  match err with
  | Some e => Done (0, Some e, stream)
  | None =>
  let '(stream, err) := binary_Write_uint64 stream (wrap64 (w s)) in
  match err with
  | Some e => Done (0, Some e, stream)
  | None =>
  let C := make_uint64s (w s) in
  '(C, stream, err) ← for_from_try 0 (Z.to_nat (d s))
      (fun r '(C, stream) =>
         C' ← for_upto (w s) (fun c C =>
                v ← cell (count s) r (Z.of_nat c);
                store C c v) C;
         let '(stream', err) := binary_Write_uint64s stream C' in
         Done (C', stream', err))
      (C, stream);
  match err with
  | Some e => Done (0, Some e, stream)
  | None => Done (codec_size s C, None, stream)
  end
  end
  end.

Definition ReadFrom (stream : Rd) (s : CountMinSketch)
    : run (Z * option error * Rd * CountMinSketch) :=
  let '(stream, dv, err) := binary_Read_uint64 stream 0 in
  match err with
  | Some e => Done (0, Some e, stream, s)
  | None =>
  let '(stream, wv, err) := binary_Read_uint64 stream 0 in
  match err with
  | Some e => Done (0, Some e, stream, s)
  | None =>
  let s := set_d s (wrap64 dv) in
  let s := set_w s (wrap64 wv) in
  let s := set_count s (replicate (Z.to_nat (d s)) []) in
  s ← for_upto (d s) (fun r s =>
        cnt ← store (count s) r (make_uint64s wv);
        Done (set_count s cnt)) s;
  let C := make_uint64s (w s) in
  '(s, C, stream, err) ← for_from_try 0 (Z.to_nat (d s))
      (fun r '(s, C, stream) =>
         let '(stream', C', err) := binary_Read_uint64s stream C in
         match err with
         | Some e => Done (s, C', stream', Some e)
         | None =>
             s' ← for_upto (w s) (fun c s =>
                    v ← index C' c;
                    cnt ← set_cell (count s) r (Z.of_nat c) v;
                    Done (set_count s cnt)) s;
             Done (s', C', stream', None)
         end)
      (s, C, stream);
  match err with
  | Some e => Done (0, Some e, stream, s)
  | None =>
      let s := set_hasher s fnv.New64 in
      Done (codec_size s C, None, stream, s)
  end
  end
  end.
End codec.

(** [GobEncode] and [GobDecode] run the codec on a [bytes.Buffer]. *)
Definition GobEncode (s : CountMinSketch)
    : run (option (list byte) * option error) :=
  '(_, err, buf) ← WriteTo s ([] : Buffer);
  match err with
  | Some e => Done (None, Some e)
  | None => Done (Some buf, None)
  end.

Definition GobDecode (data : list byte) (s : CountMinSketch)
    : run (option error * CountMinSketch) :=
  '(_, err, _, s') ← ReadFrom (data : Buffer) s;
  Done (err, s').

(** ** Sanity checks against the README *)

Definition key_abc : list byte := [Byte.x61; Byte.x62; Byte.x63].

Definition readme_count : list (list Z) :=
  [ <[3%nat := 10]> (make_uint64s 20); <[15%nat := 10]> (make_uint64s 20);
    <[7%nat := 10]> (make_uint64s 20); <[19%nat := 10]> (make_uint64s 20) ].
(** ** Shape and typing of a sketch *)

(** [count] has [d] rows of [w] cells each. *)
Definition shape_ok (s : CountMinSketch) : Prop :=
  length (count s) = Z.to_nat (d s)
  /\ Forall (fun row => length row = Z.to_nat (w s)) (count s).

(** The fields hold values of their Go types. *)
Definition well_typed (s : CountMinSketch) : Prop :=
  is_uint64 (d s) /\ is_uint64 (w s)
  /\ Forall (Forall is_uint64) (count s).

(** The number of counter cells the sketch stores. *)
Definition cells (s : CountMinSketch) : Z :=
  Z.of_nat (length (concat (count s))).

(** ** Locations *)

Definition hash_key (key : list byte) : Z :=
  fnv.Write (fnv.Reset 0) key.
Definition h1 (key : list byte) : Z :=
  binary.Uint32 (take 4 (drop 4 (fnv.Sum (hash_key key) []))).
Definition h2 (key : list byte) : Z :=
  binary.Uint32 (take 4 (fnv.Sum (hash_key key) [])).
Definition location (key : list byte) (wid : Z) (r : nat) : Z :=
  wrap64 (h1 key + wrap64 (h2 key * Z.of_nat r)) mod wid.

(** What [Update] leaves in row [r]: the cell the key maps to is
    incremented, with wrap-around. *)
Definition bump (amount : Z) (c : Z) (row : list Z) : list Z :=
  match row !! Z.to_nat c with
  | Some v => <[Z.to_nat c := wrap64 (v + amount)]> row
  | None => row
  end.

Definition updated (key : list byte) (amount : Z) (s : CountMinSketch)
    : list (list Z) :=
  imap (fun r row => bump amount (location key (w s) r) row) (count s).

(** The cell [(r, c)] of a matrix, when it exists. *)
Definition get2 (cnt : list (list Z)) (r c : nat) : option Z :=
  row ← cnt !! r; row !! c.

(** The shape of a counter matrix on its own. *)
Definition matrix_ok (n m : nat) (cnt : list (list Z)) : Prop :=
  length cnt = n /\ Forall (fun row => length row = m) cnt.

(** The cell [(r, c)] of the receiver after [Merge], from the cells
    before. *)
Definition merged_cell (cs co : list (list Z)) (r c : nat) : option Z :=
  x ← get2 cs r c; y ← get2 co r c; Some (wrap64 (x + y)).

(** Cells before [(i, j)] in row-major order. *)
Definition before (i j r c : nat) : bool :=
  (r <? i)%nat || ((r =? i)%nat && (c <? j)%nat).

(** The bytes [WriteTo] appends to the stream. *)
Definition encoding (s : CountMinSketch) : list byte :=
  binary.PutUint64 (d s) ++ binary.PutUint64 (w s)
  ++ flat_map binary.PutUint64 (concat (count s)).

(** The sketch [New] allocates. *)
Definition fresh_sketch (d0 w0 : Z) : CountMinSketch :=
  {| d := d0; w := w0;
     count := replicate (Z.to_nat d0) (make_uint64s w0);
     hasher := fnv.New64 |}.

(** What holds of the heap when [Merge] is about to add cell [(i, j)]:
    only the receiver has changed, and of it the cells before
    [(i, j)]. *)
Definition merging_at (p : loc) (h : heap) (s other : CountMinSketch)
    (i j : nat) (h' : heap) : Prop :=
  exists cnt,
    h' = <[p := set_count s cnt]> h
    /\ matrix_ok (Z.to_nat (d s)) (Z.to_nat (w s)) cnt
    /\ forall r c, (r < Z.to_nat (d s))%nat -> (c < Z.to_nat (w s))%nat ->
         get2 cnt r c
         = if before i j r c then merged_cell (count s) (count other) r c
           else get2 (count s) r c.

#[global] Instance is_uint64_dec (z : Z) : Decision (is_uint64 z).
Proof. unfold is_uint64. apply _. Defined.
#[global] Instance shape_ok_dec (s : CountMinSketch) : Decision (shape_ok s).
Proof. unfold shape_ok. apply _. Defined.
#[global] Instance well_typed_dec (s : CountMinSketch)
  : Decision (well_typed s).
Proof. unfold well_typed. apply _. Defined.

(** The two errors of [Merge]. *)
Definition DimensionMismatch (e : error) : Prop :=
  e = errDepth \/ e = errWidth.

(** The shape of a decoded JSON payload. *)
Definition payload_ok (j : CountMinSketchJSON) : Prop :=
  matrix_ok (Z.to_nat (json_D j)) (Z.to_nat (json_W j)) (json_Count j).

(** ** The flat variant of [countminsketch.go]

    [count] is one slice of [d*w] counters; [New] has no check of zero
    dimensions, only of the size of [d*w] seen as an [int32]. *)

Module Legacy.
Record CountMinSketch : Type := mkCountMinSketch {
  d : Z;
  w : Z;
  count : list Z;
  hasher : Z
}.

Definition wrap_uint32 (z : Z) : Z := z mod 2 ^ 32.
Definition wrap_int32 (z : Z) : Z := (z + 2 ^ 31) mod 2 ^ 32 - 2 ^ 31.

Definition New (d0 w0 : Z) : option CountMinSketch * option error :=
  let dw := wrap64 (d0 * w0) in
  if (wrap_int32 dw <? 0)
     || (wrap_int32 (Z.shiftr (wrap_uint32 (Z.lnot 0)) 1) <? wrap_int32 dw)
  then (None, Some (Errorf "d*w (%d) too large, out of range" dw))
  else if 536870912 <? wrap_int32 dw
  then (None,
        Some (Errorf "d*w (%d) too large, it would be out of memory" dw))
  else
    (Some {| d := d0; w := w0; count := make_uint64s (wrap_int32 dw);
             hasher := fnv.New64 |},
     None).
End Legacy.

(** ** States used in the examples *)

(** The sketch of the README after [UpdateString("abc", 10)]. *)
Definition sketch_abc : CountMinSketch :=
  {| d := 4; w := 20; count := readme_count; hasher := fnv.New64 |}.

(** One counter, one step from wrapping: [New(1, 1)] followed by
    [Update(key, 1<<64 - 1)]. *)
Definition saturated : CountMinSketch :=
  {| d := 1; w := 1; count := [[2 ^ 64 - 1]];
     hasher := hash_key key_abc |}.

(** [saturated] after one more [Update(key, 1)]. *)
Definition one_cell_after_wrap : CountMinSketch :=
  {| d := 1; w := 1; count := [[0]]; hasher := hash_key key_abc |}.

Definition one_cell (v : Z) : CountMinSketch :=
  {| d := 1; w := 1; count := [[v]]; hasher := fnv.New64 |}.

(** Two sketches of different depth. *)
Definition two_rows : CountMinSketch :=
  {| d := 2; w := 1; count := [[5]; [7]]; hasher := fnv.New64 |}.

(** What [json.Unmarshal] gives for an object with [d] 4, [w] 20 and an
    empty [count] array. *)
Definition payload_no_rows : CountMinSketchJSON :=
  {| json_D := 4; json_W := 20; json_Count := [] |}.

(** Two sketches of one cell whose counters sum to [2^64]. *)
Definition heap_overflow : heap :=
  <[1%nat := one_cell 1]> (<[0%nat := one_cell (2 ^ 64 - 1)]> ∅).

(** Two sketches of different depths. *)
Definition heap_mismatch : heap :=
  <[1%nat := two_rows]> (<[0%nat := one_cell 3]> ∅).

(** Two copies of the README sketch. *)
Definition heap_abc : heap :=
  <[1%nat := sketch_abc]> (<[0%nat := sketch_abc]> ∅).

(** ** Streams of events *)

#[global] Instance byte_eq_dec : EqDecision byte.
Proof.
  intros a b. destruct (decide (byte.unsigned a = byte.unsigned b)) as [H|H].
  - left. by apply byte.unsigned_inj.
  - right. by intros ->.
Defined.

(** An event is a key and the amount [Update] is called with. *)
Definition event : Type := list byte * Z.

(** [for _, e := range events { s.Update(e.key, e.amount) }] *)
Fixpoint Updates (events : list event) (s : CountMinSketch)
    : run CountMinSketch :=
  match events with
  | [] => Done s
  | (key, amount) :: events' =>
      '(_, s') ← Update key amount s; Updates events' s'
  end.

(** The sum of the amounts of all events, of the events of one key, and
    of the events that land on cell [(r, c)] of a sketch of width
    [wid]. *)
Definition total (events : list event) : Z :=
  foldr (fun e acc => e.2 + acc) 0 events.
Definition true_count (key : list byte) (events : list event) : Z :=
  foldr (fun e acc => if decide (e.1 = key) then e.2 + acc else acc)
        0 events.
Definition hits (wid : Z) (r c : nat) (events : list event) : Z :=
  foldr (fun e acc =>
           if decide (location e.1 wid r = Z.of_nat c) then e.2 + acc
           else acc)
        0 events.

(** The README sketch as [Update] leaves it, with the hasher holding the
    digest of the key, twice in a heap. *)
Definition sketch_counted : CountMinSketch :=
  set_hasher sketch_abc (hash_key key_abc).
Definition heap_counted : heap :=
  <[1%nat := sketch_counted]> (<[0%nat := sketch_counted]> ∅).

(** ** The flat variant of [countminsketch.go]: hashing, [Update],
    [Estimate], [WriteTo] and [ReadFrom]

    The counter of row [r] and column [c] is [count[r*w + c]]. *)

Module LegacyOps.
Definition set_count (s : Legacy.CountMinSketch) (cnt : list Z)
    : Legacy.CountMinSketch :=
  {| Legacy.d := Legacy.d s; Legacy.w := Legacy.w s; Legacy.count := cnt;
     Legacy.hasher := Legacy.hasher s |}.
Definition set_hasher (s : Legacy.CountMinSketch) (h : Z)
    : Legacy.CountMinSketch :=
  {| Legacy.d := Legacy.d s; Legacy.w := Legacy.w s;
     Legacy.count := Legacy.count s; Legacy.hasher := h |}.

Definition base_hashes (key : list byte) (s : Legacy.CountMinSketch)
    : Z * Z * Legacy.CountMinSketch :=
  let h := fnv.Reset (Legacy.hasher s) in
  let h := fnv.Write h key in
  let sum := fnv.Sum h [] in
  let upper := take 4 sum in
  let lower := take 4 (drop 4 sum) in
  let a := binary.Uint32 lower in
  let b := binary.Uint32 upper in
  (a, b, set_hasher s h).

Definition locations (key : list byte) (s : Legacy.CountMinSketch)
    : run (list Z * Legacy.CountMinSketch) :=
  let locs := make_uint64s (Legacy.d s) in
  let '(a, b, s') := base_hashes key s in
  let ua := a in
  let ub := b in
  locs' ← for_upto (Legacy.d s') (fun r locs =>
             c ← umod (wrap64 (ua + wrap64 (ub * Z.of_nat r))) (Legacy.w s');
             store locs r c) locs;
  Done (locs', s').

(** [uint(r)*s.w+c] *)
Definition flat_index (s : Legacy.CountMinSketch) (r : nat) (c : Z) : nat :=
  Z.to_nat (wrap64 (wrap64 (Z.of_nat r * Legacy.w s) + c)).

Definition Update (key : list byte) (amount : Z) (s : Legacy.CountMinSketch)
    : run (unit * Legacy.CountMinSketch) :=
  '(locs, s') ← locations key s;
  s'' ← for_range locs (fun r c s =>
          v ← index (Legacy.count s) (flat_index s r c);
          cnt ← store (Legacy.count s) (flat_index s r c)
                      (wrap64 (v + amount));
          Done (set_count s cnt)) s';
  Done (tt, s'').

Definition Estimate (key : list byte) (s : Legacy.CountMinSketch)
    : run (Z * Legacy.CountMinSketch) :=
  let min := 0 in
  '(locs, s') ← locations key s;
  min' ← for_range locs (fun r c min =>
           if decide (r = 0%nat)
           then index (Legacy.count s') (flat_index s' r c)
           else
             v ← index (Legacy.count s') (flat_index s' r c);
             if v <? min then index (Legacy.count s') (flat_index s' r c)
             else Done min) min;
  Done (min', s').

Definition WriteTo {Wr : Type} `{!Writer Wr} (s : Legacy.CountMinSketch)
    (stream : Wr) : run (Z * option error * Wr) :=
  let '(stream, err) := binary_Write_uint64 stream (wrap64 (Legacy.d s)) in
  match err with
  | Some e => Done (0, Some e, stream)
  | None =>
  let '(stream, err) := binary_Write_uint64 stream (wrap64 (Legacy.w s)) in
  match err with
  | Some e => Done (0, Some e, stream)
  | None =>
  let n := wrap64 (Legacy.d s * Legacy.w s) in
  let C := make_uint64s n in
  C ← for_upto n (fun i C =>
        v ← index (Legacy.count s) i;
        store C i (wrap64 v)) C;
  let '(stream, err) := binary_Write_uint64s stream C in
  match err with
  | Some e => Done (0, Some e, stream)
  | None =>
      Done (wrap_int64 (2 * binary.Size_uint64 + binary.Size_uint64s C),
            None, stream)
  end
  end
  end.
Definition set_d (s : Legacy.CountMinSketch) (v : Z)
    : Legacy.CountMinSketch :=
  {| Legacy.d := v; Legacy.w := Legacy.w s; Legacy.count := Legacy.count s;
     Legacy.hasher := Legacy.hasher s |}.
Definition set_w (s : Legacy.CountMinSketch) (v : Z)
    : Legacy.CountMinSketch :=
  {| Legacy.d := Legacy.d s; Legacy.w := v; Legacy.count := Legacy.count s;
     Legacy.hasher := Legacy.hasher s |}.

Definition ReadFrom {Rd : Type} `{!Reader Rd} (stream : Rd)
    (s : Legacy.CountMinSketch)
    : run (Z * option error * Rd * Legacy.CountMinSketch) :=
  let '(stream, dv, err) := binary_Read_uint64 stream 0 in
  match err with
  | Some e => Done (0, Some e, stream, s)
  | None =>
  let '(stream, wv, err) := binary_Read_uint64 stream 0 in
  match err with
  | Some e => Done (0, Some e, stream, s)
  | None =>
  let s := set_d s (wrap64 dv) in
  let s := set_w s (wrap64 wv) in
  let n := wrap64 (Legacy.d s * Legacy.w s) in
  let s := set_count s (make_uint64s n) in
  let C := make_uint64s n in
  let '(stream, C, err) := binary_Read_uint64s stream C in
  match err with
  | Some e => Done (0, Some e, stream, s)
  | None =>
      s ← for_upto n (fun i s =>
            v ← index C i;
            cnt ← store (Legacy.count s) i (wrap64 v);
            Done (set_count s cnt)) s;
      let s := set_hasher s fnv.New64 in
      Done (wrap_int64 (2 * binary.Size_uint64 + binary.Size_uint64s C),
            None, stream, s)
  end
  end
  end.
End LegacyOps.

(** The flat sketch that holds the counters of a matrix sketch, row
    after row. *)
Definition flatten (s : CountMinSketch) : Legacy.CountMinSketch :=
  {| Legacy.d := d s; Legacy.w := w s; Legacy.count := concat (count s);
     Legacy.hasher := hasher s |}.

(** Three sketches of one cell; the first two sum to [2^64]. *)
Definition heap_three : heap :=
  <[2%nat := one_cell 5]> heap_overflow.

(** ** Allocation

    The ceiling the flat [New] sets itself ([countminsketch.go], line
    44): [2^29] counters.  Dimensions are [allocatable] when neither
    of them nor their product is above it. *)

Definition max_cells : Z := 536870912.

Definition allocatable (d0 w0 : Z) : Prop :=
  0 <= d0 <= max_cells /\ 0 <= w0 <= max_cells /\ d0 * w0 <= max_cells.

(** A stream that is long enough to hold a header declares allocatable
    dimensions. *)
Definition header_allocatable (stream : Buffer) : Prop :=
  (16 <= length stream)%nat ->
  allocatable (binary.Uint64 stream) (binary.Uint64 (drop 8 stream)).

#[global] Instance allocatable_dec d0 w0 : Decision (allocatable d0 w0).
Proof. unfold allocatable. apply _. Defined.

(** ** math: [Log] and [Ceil] on [float64]

    [math.Log] is the algorithm of Go's [math/log.go] (FreeBSD's
    [e_log.c]), every operation rounded to nearest as on amd64.
    [math.Ceil] is exact. *)

Module math.



End math.


(** ** NewWithEstimates *)






(** ** What [WriteTo] hands to the writer

    One [Write] for the depth, one for the width and one for each row,
    in this order, until one of them fails. *)

Fixpoint write_all {Wr : Type} `{!Writer Wr} (stream : Wr)
    (chunks : list (list byte)) : Wr * option error :=
  match chunks with
  | [] => (stream, None)
  | c :: chunks' =>
      let '(stream', err) := io_Write stream c in
      match err with
      | Some e => (stream', Some e)
      | None => write_all stream' chunks'
      end
  end.

Definition chunks (s : CountMinSketch) : list (list byte) :=
  binary.PutUint64 (wrap64 (d s)) :: binary.PutUint64 (wrap64 (w s))
  :: map binary.PutUint64s (count s).

(** * Verification *)
(** ** Loops: invariants *)

Section loops.
Context {S : Type}.

Lemma for_from_inv (P : nat -> S -> Prop) (body : nat -> S -> run S)
    (n : nat) : forall (i : nat) (st : S),
  P i st ->
  (forall k st0, (i <= k < i + n)%nat -> P k st0 ->
     exists st1, body k st0 = Done st1 /\ P (Datatypes.S k) st1) ->
  exists st', for_from i n body st = Done st' /\ P (i + n)%nat st'.
Proof.
  induction n as [|n IH]; intros i st HP Hbody; simpl.
  - exists st. by rewrite Nat.add_0_r.
  - destruct (Hbody i st) as (st1 & Hb & HP1); [lia | done |].
    rewrite Hb. simpl.
    destruct (IH (Datatypes.S i) st1 HP1) as (st' & Hrun & HP').
    { intros k st0 Hk. apply Hbody. lia. }
    exists st'. split; [done |].
    by replace (i + Datatypes.S n)%nat with (Datatypes.S i + n)%nat by lia.
Qed.

Lemma for_upto_inv (P : nat -> S -> Prop) (body : nat -> S -> run S)
    (n : Z) (st : S) :
  P 0%nat st ->
  (forall k st0, (k < Z.to_nat n)%nat -> P k st0 ->
     exists st1, body k st0 = Done st1 /\ P (Datatypes.S k) st1) ->
  exists st', for_upto n body st = Done st' /\ P (Z.to_nat n) st'.
Proof.
  intros HP Hbody. unfold for_upto.
  apply (for_from_inv P body (Z.to_nat n) 0%nat st HP).
  intros k st0 Hk. apply Hbody. lia.
Qed.

Lemma for_range_from_inv {A} (P : nat -> S -> Prop)
    (body : nat -> A -> S -> run S) (l : list A) :
  forall (r : nat) (st : S),
  P r st ->
  (forall j c st0, l !! j = Some c -> P (r + j)%nat st0 ->
     exists st1, body (r + j)%nat c st0 = Done st1
                 /\ P (Datatypes.S (r + j)) st1) ->
  exists st', for_range_from r l body st = Done st'
              /\ P (r + length l)%nat st'.
Proof.
  induction l as [|c l IH]; intros r st HP Hbody; simpl.
  - exists st. by rewrite Nat.add_0_r.
  - destruct (Hbody 0%nat c st) as (st1 & Hb & HP1); [done | |].
    { by rewrite Nat.add_0_r. }
    rewrite Nat.add_0_r in Hb, HP1. rewrite Hb. simpl.
    destruct (IH (Datatypes.S r) st1 HP1) as (st' & Hrun & HP').
    { intros j c' st0 Hj HPj.
      replace (Datatypes.S r + j)%nat with (r + Datatypes.S j)%nat in * by lia.
      by apply Hbody. }
    exists st'. split; [done |].
    by replace (r + Datatypes.S (length l))%nat
      with (Datatypes.S r + length l)%nat by lia.
Qed.

Lemma for_range_inv {A} (P : nat -> S -> Prop)
    (body : nat -> A -> S -> run S) (l : list A) (st : S) :
  P 0%nat st ->
  (forall j c st0, l !! j = Some c -> P j st0 ->
     exists st1, body j c st0 = Done st1 /\ P (Datatypes.S j) st1) ->
  exists st', for_range l body st = Done st' /\ P (length l) st'.
Proof.
  intros HP Hbody.
  apply (for_range_from_inv P body l 0%nat st HP).
  intros j c st0 Hj. simpl. by apply Hbody.
Qed.
End loops.

(** A loop that writes [f r] to slot [r] of a slice of [n] slots
    fills the slice with [f 0 .. f (n-1)]. *)
Lemma for_from_fill {A} (f : nat -> A) (body : nat -> list A -> run (list A))
    (n : nat) (l : list A) :
  length l = n ->
  (forall r l0, (r < n)%nat -> length l0 = n ->
     body r l0 = Done (<[r := f r]> l0)) ->
  for_from 0 n body l = Done (f <$> seq 0 n).
Proof.
  intros Hlen Hbody.
  destruct (for_from_inv
    (fun k l0 => length l0 = n /\ forall r, (r < k)%nat -> l0 !! r = Some (f r))
    body n 0%nat l) as (l' & Hrun & Hlen' & Hl').
  - split; [done | intros; lia].
  - intros k l0 Hk [Hl0 Hpre]. exists (<[k := f k]> l0).
    split; [apply Hbody; [lia | done] |].
    split; [by rewrite length_insert |].
    intros r Hr. destruct (decide (r = k)) as [->|Hne].
    + apply list_lookup_insert_eq. lia.
    + rewrite list_lookup_insert_ne by done. apply Hpre. lia.
  - rewrite Hrun. f_equal. apply list_eq. intros r.
    destruct (decide (r < n)%nat) as [Hr|Hr].
    + rewrite Hl' by lia. rewrite list_lookup_fmap.
      by rewrite lookup_seq_lt.
    + rewrite !lookup_ge_None_2; [done | |].
      * rewrite length_fmap, length_seq. lia.
      * lia.
Qed.

Lemma baseHashes_eq key s :
  baseHashes key s = (h1 key, h2 key, set_hasher s (hash_key key)).
Proof. reflexivity. Qed.

Lemma location_lt key wid r : 1 <= wid -> 0 <= location key wid r < wid.
Proof. intros Hw. unfold location. apply Z.mod_pos_bound. lia. Qed.

Lemma locations_eq key s :
  w s <> 0 \/ d s <= 0 ->
  locations key s
  = Done (location key (w s) <$> seq 0 (Z.to_nat (d s)),
          set_hasher s (hash_key key)).
Proof.
  intros Hw. unfold locations. rewrite baseHashes_eq. cbn [d w set_hasher].
  unfold for_upto.
  rewrite (for_from_fill (location key (w s))); [done | |].
  - unfold make_uint64s. by rewrite length_replicate.
  - intros r l0 Hr Hl0. unfold umod.
    destruct (Z.eqb_spec (w s) 0) as [Hz|Hnz]; [lia |].
    cbn. unfold store.
    destruct (lookup_lt_is_Some_2 l0 r) as [x Hx]; [lia |].
    by rewrite Hx.
Qed.

Lemma locations_lookup key s r c :
  (location key (w s) <$> seq 0 (Z.to_nat (d s))) !! r = Some c ->
  (r < Z.to_nat (d s))%nat /\ c = location key (w s) r.
Proof.
  rewrite list_lookup_fmap. intros H.
  destruct (seq 0 (Z.to_nat (d s)) !! r) as [k|] eqn:Hk; [|done].
  apply lookup_seq in Hk as [-> Hlt]. simpl in H. split; [done | congruence].
Qed.

(** ** Cells *)

Lemma cell_Done cnt r c row v :
  cnt !! r = Some row -> row !! Z.to_nat c = Some v -> cell cnt r c = Done v.
Proof. intros Hr Hc. unfold cell, index. rewrite Hr. cbn. by rewrite Hc. Qed.

Lemma cell_inv cnt r c v :
  cell cnt r c = Done v ->
  exists row, cnt !! r = Some row /\ row !! Z.to_nat c = Some v.
Proof.
  unfold cell, index. destruct (cnt !! r) as [row|]; [|done]. cbn.
  destruct (row !! Z.to_nat c) as [x|] eqn:Hx; [|done].
  intros [= ->]. eauto.
Qed.

Lemma set_cell_Done cnt r c row v :
  cnt !! r = Some row -> (Z.to_nat c < length row)%nat ->
  set_cell cnt r c v = Done (<[r := <[Z.to_nat c := v]> row]> cnt).
Proof.
  intros Hr Hc. unfold set_cell, index, store. rewrite Hr. cbn.
  destruct (lookup_lt_is_Some_2 row (Z.to_nat c) Hc) as [x Hx].
  by rewrite Hx.
Qed.

Lemma shape_row s r :
  shape_ok s -> (r < Z.to_nat (d s))%nat ->
  exists row, count s !! r = Some row /\ length row = Z.to_nat (w s).
Proof.
  intros [Hlen Hrows] Hr.
  destruct (lookup_lt_is_Some_2 (count s) r) as [row Hrow]; [lia |].
  exists row. split; [done |].
  by apply (proj1 (Forall_lookup _ _) Hrows r row).
Qed.

(** Under [shape_ok] and [1 <= w] the cell of row [r] that the key
    maps to exists. *)
Lemma shape_cell key s r :
  shape_ok s -> 1 <= w s -> (r < Z.to_nat (d s))%nat ->
  exists row v, count s !! r = Some row
    /\ length row = Z.to_nat (w s)
    /\ row !! Z.to_nat (location key (w s) r) = Some v.
Proof.
  intros Hs Hw Hr. destruct (shape_row s r Hs Hr) as (row & Hrow & Hlen).
  pose proof (location_lt key (w s) r Hw) as Hloc.
  destruct (lookup_lt_is_Some_2 row (Z.to_nat (location key (w s) r)))
    as [v Hv]; [lia |].
  eauto.
Qed.

(** ** Update *)

Lemma length_bump amount c row : length (bump amount c row) = length row.
Proof.
  unfold bump. destruct (row !! Z.to_nat c); [|done].
  by rewrite length_insert.
Qed.

Lemma Update_eq key amount s :
  shape_ok s -> 1 <= w s ->
  Update key amount s
  = Done (tt, set_count (set_hasher s (hash_key key)) (updated key amount s)).
Proof.
  intros Hs Hw. unfold Update.
  rewrite locations_eq by lia. cbn.
  set (s0 := set_hasher s (hash_key key)).
  set (locs := location key (w s) <$> seq 0 (Z.to_nat (d s))).
  destruct (for_range_inv
    (fun k st => d st = d s /\ w st = w s /\ hasher st = hash_key key
       /\ forall r, count st !! r
            = if decide (r < k)%nat
              then bump amount (location key (w s) r) <$> count s !! r
              else count s !! r)
    (fun r c st =>
       v ← cell (count st) r c;
       cnt ← set_cell (count st) r c (wrap64 (v + amount));
       Done (set_count st cnt))
    locs s0) as (st & Hrun & Hd & Hw' & Hh & Hcnt).
  - repeat split; done.
  - intros j c st0 Hj (Hd & Hw' & Hh & Hcnt).
    apply locations_lookup in Hj as [Hjd ->].
    destruct (shape_cell key s j Hs Hw Hjd) as (row & v & Hrow & Hlen & Hv).
    pose proof (location_lt key (w s) j Hw) as Hloc.
    assert (count st0 !! j = Some row) as Hrow0.
    { rewrite Hcnt. by rewrite decide_False by lia. }
    rewrite (cell_Done _ _ _ row v) by done. cbn.
    rewrite (set_cell_Done _ _ _ row) by (done || lia). cbn.
    eexists. split; [done |]. cbn. repeat split; try done.
    intros r. destruct (decide (r = j)) as [->|Hne].
    + rewrite list_lookup_insert_eq by (by eapply lookup_lt_Some).
      rewrite decide_True by lia. rewrite Hrow. cbn. unfold bump.
      by rewrite Hv.
    + rewrite list_lookup_insert_ne by done. rewrite Hcnt.
      destruct (decide (r < j)%nat), (decide (r < Datatypes.S j)%nat);
        (done || lia).
  - rewrite Hrun. cbn. do 2 f_equal.
    destruct st as [d1 w1 c1 hs1]. cbn in *. subst. unfold set_count. cbn.
    f_equal. apply list_eq. intros r. rewrite Hcnt.
    unfold updated. rewrite list_lookup_imap.
    unfold locs. rewrite length_fmap, length_seq.
    destruct (decide (r < Z.to_nat (d s))%nat) as [Hr|Hr]; [done |].
    destruct Hs as [Hlen _].
    rewrite (lookup_ge_None_2 (count s) r) by lia. done.
Qed.

Lemma updated_lookup key amount s r row :
  count s !! r = Some row ->
  updated key amount s !! r = Some (bump amount (location key (w s) r) row).
Proof. intros H. unfold updated. rewrite list_lookup_imap. by rewrite H. Qed.

Lemma length_updated key amount s :
  length (updated key amount s) = length (count s).
Proof. unfold updated. by rewrite length_imap. Qed.

Lemma shape_ok_Update key amount s :
  shape_ok s ->
  shape_ok (set_count (set_hasher s (hash_key key)) (updated key amount s)).
Proof.
  intros [Hlen Hrows]. split; cbn.
  - by rewrite length_updated.
  - apply Forall_lookup. intros r row Hr.
    unfold updated in Hr. rewrite list_lookup_imap in Hr.
    destruct (count s !! r) as [row0|] eqn:Hrow0; [|done].
    cbn in Hr. injection Hr as <-. rewrite length_bump.
    by apply (proj1 (Forall_lookup _ _) Hrows r row0).
Qed.

(** ** Estimate *)

Lemma Estimate_spec key s :
  shape_ok s -> 1 <= d s -> 1 <= w s ->
  exists m,
    Estimate key s = Done (m, set_hasher s (hash_key key))
    /\ (exists r, (r < Z.to_nat (d s))%nat
          /\ cell (count s) r (location key (w s) r) = Done m)
    /\ (forall r v, cell (count s) r (location key (w s) r) = Done v ->
          (r < Z.to_nat (d s))%nat -> m <= v).
Proof.
  intros Hs Hd Hw. unfold Estimate.
  rewrite locations_eq by lia. cbn.
  set (locs := location key (w s) <$> seq 0 (Z.to_nat (d s))).
  destruct (for_range_inv
    (fun k m => k = 0%nat
       \/ ((exists r, (r < k)%nat
              /\ cell (count s) r (location key (w s) r) = Done m)
           /\ (forall r v, cell (count s) r (location key (w s) r) = Done v ->
                 (r < k)%nat -> m <= v)))
    (fun r c m =>
       if decide (r = 0%nat) then cell (count s) r c
       else
         v ← cell (count s) r c;
         if v <? m then cell (count s) r c else Done m)
    locs 0) as (m & Hrun & Hm).
  - by left.
  - intros j c m0 Hj HP.
    apply locations_lookup in Hj as [Hjd ->].
    destruct (shape_cell key s j Hs Hw Hjd) as (row & v & Hrow & Hlen & Hv).
    pose proof (cell_Done _ _ _ _ _ Hrow Hv) as Hcell.
    destruct (decide (j = 0%nat)) as [->|Hj0].
    + exists v. split; [done |]. right. split.
      * exists 0%nat. split; [lia | done].
      * intros r v' Hv' Hr. assert (r = 0%nat) as -> by lia.
        rewrite Hcell in Hv'. injection Hv' as ->. lia.
    + destruct HP as [->|[(r0 & Hr0 & Hc0) Hmin]]; [done |].
      rewrite Hcell. cbn.
      destruct (Z.ltb_spec v m0) as [Hlt|Hge].
      * exists v. split; [done |]. right. split.
        -- exists j. split; [lia | done].
        -- intros r v' Hv' Hr. destruct (decide (r = j)) as [->|Hne].
           ++ rewrite Hcell in Hv'. injection Hv' as ->. lia.
           ++ specialize (Hmin r v' Hv'). lia.
      * exists m0. split; [done |]. right. split.
        -- exists r0. split; [lia | done].
        -- intros r v' Hv' Hr. destruct (decide (r = j)) as [->|Hne].
           ++ rewrite Hcell in Hv'. injection Hv' as ->. lia.
           ++ apply (Hmin r v'); [done | lia].
  - exists m. rewrite Hrun. cbn. split; [done |].
    unfold locs in Hm. rewrite length_fmap, length_seq in Hm.
    destruct Hm as [Hz|Hm]; [lia | done].
Qed.

(** ** Merge *)

Lemma shape_ok_matrix s :
  shape_ok s <-> matrix_ok (Z.to_nat (d s)) (Z.to_nat (w s)) (count s).
Proof. reflexivity. Qed.

Lemma cell_get2 cnt r c v :
  cell cnt r c = Done v <-> get2 cnt r (Z.to_nat c) = Some v.
Proof.
  unfold cell, get2, index. destruct (cnt !! r) as [row|]; cbn; [|done].
  destruct (row !! Z.to_nat c); cbn; [|done].
  split; intros [= ->]; done.
Qed.

Lemma matrix_get2 n m cnt r c :
  matrix_ok n m cnt -> (r < n)%nat -> (c < m)%nat ->
  exists row v, cnt !! r = Some row /\ length row = m
    /\ row !! c = Some v /\ get2 cnt r c = Some v.
Proof.
  intros [Hlen Hrows] Hr Hc.
  destruct (lookup_lt_is_Some_2 cnt r) as [row Hrow]; [lia |].
  pose proof (proj1 (Forall_lookup _ _) Hrows r row Hrow) as Hl.
  cbn beta in Hl.
  destruct (lookup_lt_is_Some_2 row c) as [v Hv]; [lia |].
  exists row, v. unfold get2. rewrite Hrow. cbn. eauto.
Qed.

Lemma matrix_set n m cnt r c row v :
  matrix_ok n m cnt -> cnt !! r = Some row ->
  matrix_ok n m (<[r := <[c := v]> row]> cnt).
Proof.
  intros [Hlen Hrows] Hrow. split.
  - by rewrite length_insert.
  - apply Forall_insert; [done |]. rewrite length_insert.
    by apply (proj1 (Forall_lookup _ _) Hrows r row).
Qed.

Lemma get2_set cnt r c row v r' c' :
  cnt !! r = Some row -> (c < length row)%nat ->
  get2 (<[r := <[c := v]> row]> cnt) r' c'
  = if decide (r' = r /\ c' = c) then Some v else get2 cnt r' c'.
Proof.
  intros Hrow Hc. unfold get2.
  destruct (decide (r' = r)) as [->|Hr].
  - rewrite list_lookup_insert_eq by (by eapply lookup_lt_Some). cbn.
    rewrite Hrow. cbn.
    destruct (decide (c' = c)) as [->|Hc'].
    + rewrite decide_True by done. by apply list_lookup_insert_eq.
    + rewrite decide_False by tauto. by apply list_lookup_insert_ne.
  - rewrite list_lookup_insert_ne by done.
    by rewrite decide_False by tauto.
Qed.

Lemma before_decide i j r c :
  before i j r c = bool_decide (r < i \/ (r = i /\ c < j))%nat.
Proof.
  unfold before.
  destruct (Nat.ltb_spec r i), (Nat.eqb_spec r i), (Nat.ltb_spec c j); cbn;
    symmetry; (apply bool_decide_eq_true_2 || apply bool_decide_eq_false_2);
    lia.
Qed.

Section merge.
Variables (p q : loc) (h : heap) (s other : CountMinSketch).
Hypothesis Hp : h !! p = Some s.
Hypothesis Hq : h !! q = Some other.
Hypothesis Hd : d s = d other.
Hypothesis Hw : w s = w other.
Hypothesis Hs : shape_ok s.
Hypothesis Ho : shape_ok other.

Local Abbreviation n := (Z.to_nat (d s)).
Local Abbreviation m := (Z.to_nat (w s)).
Local Abbreviation merging := (merging_at p h s other).

Lemma merging_start : merging 0 0 h.
Proof.
  exists (count s). split; [|split].
  - rewrite insert_id; [done |]. by destruct s.
  - by apply shape_ok_matrix.
  - intros r c _ _. rewrite before_decide.
    by rewrite bool_decide_eq_false_2 by lia.
Qed.

Lemma merging_next_row i h' : merging i m h' -> merging (Datatypes.S i) 0 h'.
Proof.
  intros (cnt & -> & Hm & Hcells). exists cnt. repeat split; try apply Hm.
  intros r c Hr Hc. rewrite Hcells by done. rewrite !before_decide.
  apply (f_equal (fun b : bool => if b then _ else _)).
  apply bool_decide_ext. lia.
Qed.

Lemma Merge_cell_step i j h' :
  (i < n)%nat -> (j < m)%nat -> merging i j h' ->
  exists h'', Merge_cell p q i j h' = Done h''
              /\ merging i (Datatypes.S j) h''.
Proof.
  intros Hi Hj (cnt & -> & Hm & Hcells).
  destruct (matrix_get2 n m cnt i j Hm Hi Hj) as (row & x & Hrow & Hlen & Hx & Hgx).
  assert (matrix_ok n m (count other)) as Hmo.
  { apply shape_ok_matrix in Ho. by rewrite Hd, Hw. }
  destruct (matrix_get2 n m (count other) i j Hmo Hi Hj)
    as (orow & y & Horow & Holen & Hy & Hgy).
  assert (get2 (count s) i j = Some x) as Hsx.
  { rewrite <- Hgx, Hcells by done. rewrite before_decide.
    by rewrite bool_decide_eq_false_2 by lia. }
  assert (exists o', deref (<[p := set_count s cnt]> h) q = Done o'
                     /\ get2 (count o') i j = Some y) as (o' & Ho' & Hoy).
  { unfold deref. destruct (decide (q = p)) as [->|Hne].
    - rewrite lookup_insert_eq. eexists. split; [done |]. cbn.
      assert (other = s) as -> by congruence. congruence.
    - rewrite lookup_insert_ne by done. rewrite Hq. eauto. }
  assert (deref (<[p := set_count s cnt]> h) p = Done (set_count s cnt))
    as Hdp by (unfold deref; by rewrite lookup_insert_eq).
  unfold Merge_cell. rewrite Hdp. cbn. rewrite Ho'. cbn.
  rewrite (proj2 (cell_get2 cnt i (Z.of_nat j) x)) by (by rewrite Nat2Z.id).
  cbn.
  rewrite (proj2 (cell_get2 (count o') i (Z.of_nat j) y))
    by (by rewrite Nat2Z.id).
  cbn.
  rewrite (set_cell_Done _ _ _ row) by (rewrite ?Nat2Z.id; (done || lia)).
  cbn. rewrite Nat2Z.id. eexists. split; [done |].
  exists (<[i := <[j := wrap64 (x + y)]> row]> cnt). split; [|split].
  - rewrite insert_insert_eq. done.
  - by apply matrix_set.
  - intros r c Hr Hc. rewrite (get2_set _ _ _ row) by (done || lia).
    destruct (decide (r = i /\ c = j)) as [[-> ->]|Hne].
    + rewrite before_decide, bool_decide_eq_true_2 by lia.
      unfold merged_cell. rewrite Hsx, Hgy. done.
    + rewrite Hcells by done. rewrite !before_decide.
      apply (f_equal (fun b : bool => if b then _ else _)).
      apply bool_decide_ext. lia.
Qed.

Lemma Merge_eq :
  exists cnt,
    Merge p q h = Done (None, <[p := set_count s cnt]> h)
    /\ matrix_ok n m cnt
    /\ forall r c, (r < n)%nat -> (c < m)%nat ->
         get2 cnt r c = merged_cell (count s) (count other) r c.
Proof.
  unfold Merge, deref. rewrite Hp, Hq. cbn.
  rewrite (proj2 (Z.eqb_eq _ _) Hd), (proj2 (Z.eqb_eq _ _) Hw). cbn.
  destruct (for_upto_inv (fun i h' => merging i 0 h')
    (fun i h0 => for_upto (w s) (fun j h1 => Merge_cell p q i j h1) h0)
    (d s) h) as (h' & Hrun & cnt & -> & Hm & Hcells).
  - apply merging_start.
  - intros i h0 Hi Hinv.
    destruct (for_upto_inv (fun j h' => merging i j h')
      (fun j h1 => Merge_cell p q i j h1) (w s) h0) as (h1 & Hrun1 & Hinv1).
    + done.
    + intros j h1 Hj Hinv1. by apply Merge_cell_step.
    + exists h1. split; [done |]. by apply merging_next_row.
  - rewrite Hrun. cbn. exists cnt. repeat split; try apply Hm.
    intros r c Hr Hc. rewrite Hcells by done.
    by rewrite before_decide, bool_decide_eq_true_2 by lia.
Qed.
End merge.

(** ** Big-endian encoding *)

Lemma length_PutUint64 v : length (binary.PutUint64 v) = 8%nat.
Proof. unfold binary.PutUint64. by rewrite length_rev, length_le_split. Qed.

Lemma Uint64_PutUint64 v rest :
  is_uint64 v -> binary.Uint64 (binary.PutUint64 v ++ rest) = v.
Proof.
  intros Hv. unfold binary.Uint64.
  rewrite take_app_length' by (by rewrite length_PutUint64).
  unfold binary.PutUint64. rewrite rev_involutive, le_combine_split.
  apply Z.mod_small. exact Hv.
Qed.

Lemma Uint64_range bs : is_uint64 (binary.Uint64 bs).
Proof.
  unfold binary.Uint64, is_uint64.
  pose proof (le_combine_bound (rev (take 8 bs))) as Hb.
  rewrite length_rev in Hb.
  pose proof (length_take bs 8) as Hl.
  assert (2 ^ (8 * Z.of_nat (length (take 8 bs))) <= 2 ^ 64).
  { apply Z.pow_le_mono_r; lia. }
  lia.
Qed.

Lemma length_PutUint64s vs :
  length (binary.PutUint64s vs) = (8 * length vs)%nat.
Proof.
  unfold binary.PutUint64s. induction vs as [|v vs IH]; [done |].
  cbn [flat_map length]. rewrite length_app, length_PutUint64, IH. lia.
Qed.

Lemma length_Uint64s n bs : length (binary.Uint64s n bs) = n.
Proof. revert bs. induction n as [|n IH]; intros bs; cbn; [done |]. by rewrite IH. Qed.

Lemma Uint64s_range n bs : Forall is_uint64 (binary.Uint64s n bs).
Proof.
  revert bs. induction n as [|n IH]; intros bs; cbn; constructor.
  - apply Uint64_range.
  - apply IH.
Qed.

Lemma Uint64s_PutUint64s vs rest :
  Forall is_uint64 vs ->
  binary.Uint64s (length vs) (binary.PutUint64s vs ++ rest) = vs.
Proof.
  induction 1 as [|v vs Hv Hvs IH]; [done |].
  cbn [length binary.Uint64s binary.PutUint64s flat_map].
  rewrite <- app_assoc. rewrite Uint64_PutUint64 by done. f_equal.
  rewrite drop_app_length' by (by rewrite length_PutUint64). apply IH.
Qed.

(** ** The buffer as a stream *)

Lemma Buffer_ReadFull bs rest :
  io_ReadFull (bs ++ rest : Buffer) (length bs) = (rest, bs, None).
Proof.
  unfold io_ReadFull, Buffer_Reader.
  rewrite decide_True by (rewrite length_app; lia).
  by rewrite drop_app_length, take_app_length.
Qed.

Lemma Read_uint64_PutUint64 v rest v0 :
  is_uint64 v ->
  binary_Read_uint64 (binary.PutUint64 v ++ rest : Buffer) v0
  = (rest, v, None).
Proof.
  intros Hv. unfold binary_Read_uint64.
  pose proof (Buffer_ReadFull (binary.PutUint64 v) rest) as Hr.
  rewrite length_PutUint64 in Hr. rewrite Hr.
  rewrite <- (app_nil_r (binary.PutUint64 v)).
  by rewrite Uint64_PutUint64.
Qed.

Lemma Read_uint64s_PutUint64s vs rest C :
  Forall is_uint64 vs -> length C = length vs ->
  binary_Read_uint64s (binary.PutUint64s vs ++ rest : Buffer) C
  = (rest, vs, None).
Proof.
  intros Hvs HC. unfold binary_Read_uint64s.
  pose proof (Buffer_ReadFull (binary.PutUint64s vs) rest) as Hr.
  rewrite length_PutUint64s in Hr. rewrite HC, Hr.
  rewrite <- (app_nil_r (binary.PutUint64s vs)).
  by rewrite Uint64s_PutUint64s.
Qed.

(** Whatever the stream holds, reading keeps the length of the target
    slice and gives values of the target type. *)
Lemma Read_uint64s_length (stream : Buffer) C stream' C' err :
  binary_Read_uint64s stream C = (stream', C', err) ->
  length C' = length C.
Proof.
  unfold binary_Read_uint64s.
  destruct (io_ReadFull stream (8 * length C)) as [[st bs] [e|]];
    intros [= <- <- <-]; [done | apply length_Uint64s].
Qed.

(** ** Loops that may return early *)

Lemma for_from_try_inv {S E : Type} (P : nat -> S -> Prop) (Q : S -> Prop)
    (body : nat -> S -> run (S * option E)) (n : nat) :
  forall (i : nat) (st : S),
  P i st ->
  (forall k st0, (i <= k < i + n)%nat -> P k st0 ->
     exists st1 e, body k st0 = Done (st1, e)
       /\ match e with None => P (Datatypes.S k) st1 | Some _ => Q st1 end) ->
  exists st' e, for_from_try i n body st = Done (st', e)
    /\ match e with None => P (i + n)%nat st' | Some _ => Q st' end.
Proof.
  induction n as [|n IH]; intros i st HP Hbody; simpl.
  - exists st, None. by rewrite Nat.add_0_r.
  - destruct (Hbody i st) as (st1 & e & Hb & HP1); [lia | done |].
    rewrite Hb. cbn. destruct e as [e|].
    + exists st1, (Some e). done.
    + destruct (IH (Datatypes.S i) st1 HP1) as (st' & e' & Hrun & HP').
      { intros k st0 Hk. apply Hbody. lia. }
      exists st', e'. split; [done |].
      by replace (i + Datatypes.S n)%nat with (Datatypes.S i + n)%nat by lia.
Qed.

Lemma for_from_try_ok {S E : Type} (P : nat -> S -> Prop)
    (body : nat -> S -> run (S * option E)) (n : nat) (st : S) :
  P 0%nat st ->
  (forall k st0, (k < n)%nat -> P k st0 ->
     exists st1, body k st0 = Done (st1, None) /\ P (Datatypes.S k) st1) ->
  exists st', for_from_try 0 n body st = Done (st', None) /\ P n st'.
Proof.
  intros HP Hbody.
  destruct (for_from_try_inv P (fun _ => False) body n 0%nat st HP)
    as (st' & e & Hrun & He).
  - intros k st0 Hk HPk. destruct (Hbody k st0) as (st1 & Hb & HP1);
      [lia | done |]. by exists st1, None.
  - destruct e; [done |]. by exists st'.
Qed.

(** ** Rows of the matrix *)

Lemma matrix_row n m cnt r :
  matrix_ok n m cnt -> (r < n)%nat ->
  exists row, cnt !! r = Some row /\ length row = m.
Proof.
  intros [Hlen Hrows] Hr.
  destruct (lookup_lt_is_Some_2 cnt r) as [row Hrow]; [lia |].
  exists row. split; [done |].
  by apply (proj1 (Forall_lookup _ _) Hrows r row).
Qed.

Lemma matrix_set_row n m cnt r row :
  matrix_ok n m cnt -> length row = m -> matrix_ok n m (<[r := row]> cnt).
Proof.
  intros [Hlen Hrows] Hrow. split; [by rewrite length_insert |].
  destruct (decide (r < length cnt)%nat).
  - by apply Forall_insert.
  - by rewrite list_insert_ge by lia.
Qed.

Lemma matrix_replicate n m (row : list Z) :
  length row = m -> matrix_ok n m (replicate n row).
Proof.
  intros Hrow. split; [apply length_replicate |].
  by apply Forall_replicate.
Qed.

(** Reading a whole row cell by cell gives the row. *)
Lemma lookup_all_eq (row : list Z) :
  (fun c => default 0 (row !! c)) <$> seq 0 (length row) = row.
Proof.
  apply list_eq. intros c. rewrite list_lookup_fmap.
  destruct (decide (c < length row)%nat) as [Hc|Hc].
  - rewrite lookup_seq_lt by done. cbn.
    destruct (lookup_lt_is_Some_2 row c Hc) as [v ->]. done.
  - rewrite lookup_seq_ge by lia. cbn. symmetry.
    apply lookup_ge_None_2. lia.
Qed.

(** The loop of [New] and [ReadFrom] that allocates the rows. *)
Lemma alloc_rows (n : Z) (row : list Z) (s : CountMinSketch) :
  length (count s) = Z.to_nat n ->
  for_upto n (fun r s0 =>
      cnt ← store (count s0) r row; Done (set_count s0 cnt)) s
  = Done (set_count s (replicate (Z.to_nat n) row)).
Proof.
  intros Hlen.
  destruct (for_upto_inv
    (fun k st => d st = d s /\ w st = w s /\ hasher st = hasher s
       /\ length (count st) = Z.to_nat n
       /\ forall r, (r < k)%nat -> count st !! r = Some row)
    (fun r s0 => cnt ← store (count s0) r row; Done (set_count s0 cnt))
    n s) as (st & Hrun & Hd & Hw & Hh & Hl & Hrows).
  - repeat split; try done. intros r Hr. lia.
  - intros k st0 Hk (Hd & Hw & Hh & Hl & Hrows). unfold store.
    destruct (lookup_lt_is_Some_2 (count st0) k) as [x Hx]; [lia |].
    rewrite Hx. cbn. eexists. split; [done |]. cbn.
    repeat split; try done.
    + by rewrite length_insert.
    + intros r Hr. destruct (decide (r = k)) as [->|Hne].
      * apply list_lookup_insert_eq. lia.
      * rewrite list_lookup_insert_ne by done. apply Hrows. lia.
  - rewrite Hrun. f_equal. destruct st as [d1 w1 c1 hs1]. cbn in *. subst.
    unfold set_count. cbn. f_equal. apply list_eq. intros r.
    destruct (decide (r < Z.to_nat n)%nat) as [Hr|Hr].
    + rewrite Hrows by done. symmetry. by apply lookup_replicate_2.
    + rewrite !lookup_ge_None_2; [done | |].
      * rewrite length_replicate. lia.
      * lia.
Qed.

(** The loop of [ReadFrom] that copies the slice read from the stream
    into row [r]. *)
Lemma fill_row (s : CountMinSketch) (r : nat) (C : list Z) :
  shape_ok s -> (r < Z.to_nat (d s))%nat -> length C = Z.to_nat (w s) ->
  for_upto (w s) (fun c s0 =>
      v ← index C c;
      cnt ← set_cell (count s0) r (Z.of_nat c) v;
      Done (set_count s0 cnt)) s
  = Done (set_count s (<[r := C]> (count s))).
Proof.
  intros Hs Hr HC.
  destruct (matrix_row _ _ _ r Hs Hr) as (row0 & Hrow0 & Hlen0).
  destruct (for_upto_inv
    (fun k st => d st = d s /\ w st = w s /\ hasher st = hasher s
       /\ exists row, count st = <[r := row]> (count s)
            /\ length row = Z.to_nat (w s)
            /\ forall c, (c < k)%nat -> row !! c = C !! c)
    (fun c s0 =>
       v ← index C c;
       cnt ← set_cell (count s0) r (Z.of_nat c) v;
       Done (set_count s0 cnt))
    (w s) s) as (st & Hrun & Hd & Hw & Hh & row & Hcnt & Hlen & Hrow).
  - repeat split; try done. exists row0. repeat split; try done.
    + by rewrite list_insert_id.
    + intros c Hc. lia.
  - intros k st0 Hk (Hd & Hw & Hh & row & Hcnt & Hlen & Hrow).
    unfold index.
    destruct (lookup_lt_is_Some_2 C k) as [v Hv]; [lia |].
    rewrite Hv. cbn.
    assert (count st0 !! r = Some row) as Hrow'.
    { rewrite Hcnt. apply list_lookup_insert_eq.
      by eapply lookup_lt_Some. }
    rewrite (set_cell_Done _ _ _ row) by (rewrite ?Nat2Z.id; (done || lia)).
    cbn. rewrite Nat2Z.id. eexists. split; [done |]. cbn.
    repeat split; try done.
    exists (<[k := v]> row). repeat split.
    + rewrite Hcnt. by rewrite list_insert_insert_eq.
    + by rewrite length_insert.
    + intros c Hc. destruct (decide (c = k)) as [->|Hne].
      * rewrite list_lookup_insert_eq by lia. done.
      * rewrite list_lookup_insert_ne by done. apply Hrow. lia.
  - rewrite Hrun. f_equal. destruct st as [d1 w1 c1 hs1]. cbn in *. subst.
    unfold set_count. cbn. do 2 f_equal. apply list_eq. intros c.
    destruct (decide (c < Z.to_nat (w s))%nat) as [Hc|Hc].
    + by apply Hrow.
    + rewrite !lookup_ge_None_2; (done || lia).
Qed.

(** ** WriteTo *)

Lemma flat_map_concat {A B} (f : A -> list B) (ls : list (list A)) :
  flat_map f (concat ls) = flat_map (flat_map f) ls.
Proof.
  induction ls as [|l ls IH]; [done |].
  cbn [concat flat_map]. by rewrite flat_map_app, IH.
Qed.

Lemma length_flat_map_rows n m cnt :
  matrix_ok n m cnt ->
  length (flat_map binary.PutUint64s cnt) = (8 * (n * m))%nat.
Proof.
  intros [Hlen Hrows]. subst n.
  induction Hrows as [|row cnt Hrow Hrows IH]; [done |].
  cbn [flat_map length]. rewrite length_app, length_PutUint64s, IH, Hrow. lia.
Qed.

Lemma WriteTo_row (s : CountMinSketch) (r : nat) (row C : list Z) :
  count s !! r = Some row -> length row = Z.to_nat (w s) ->
  length C = Z.to_nat (w s) ->
  for_upto (w s) (fun c C0 =>
      v ← cell (count s) r (Z.of_nat c); store C0 c v) C
  = Done row.
Proof.
  intros Hrow Hlen HC. unfold for_upto.
  rewrite (for_from_fill (fun c => default 0 (row !! c))).
  - by rewrite <- Hlen, lookup_all_eq.
  - done.
  - intros c C0 Hc HC0.
    destruct (lookup_lt_is_Some_2 row c) as [v Hv]; [lia |].
    rewrite (cell_Done _ _ _ row v) by (by rewrite ?Nat2Z.id).
    cbn. unfold store.
    destruct (lookup_lt_is_Some_2 C0 c) as [x Hx]; [lia |].
    by rewrite Hx, Hv.
Qed.

Lemma wrap64_small v : is_uint64 v -> wrap64 v = v.
Proof. intros Hv. by apply Z.mod_small. Qed.

Lemma wrap_int64_small v : - 2 ^ 63 <= v < 2 ^ 63 -> wrap_int64 v = v.
Proof. intros Hv. unfold wrap_int64. rewrite Z.mod_small; lia. Qed.

Lemma codec_size_small s C :
  1 <= d s -> 1 <= w s -> length C = Z.to_nat (w s) ->
  16 + 8 * (d s * w s) < 2 ^ 63 ->
  codec_size s C = 16 + 8 * (d s * w s).
Proof.
  intros Hd Hw HC Hfit. unfold codec_size, binary.Size_uint64s,
    binary.Size_uint64. rewrite HC, Z2Nat.id by lia.
  rewrite (wrap_int64_small (d s)) by nia.
  rewrite (wrap_int64_small (d s * _)) by nia.
  rewrite wrap_int64_small by nia. lia.
Qed.

Lemma Buffer_Write_uint64 (buf : Buffer) v :
  binary_Write_uint64 buf v = (buf ++ binary.PutUint64 v, None).
Proof. reflexivity. Qed.

Lemma Buffer_Write_uint64s (buf : Buffer) vs :
  binary_Write_uint64s buf vs = (buf ++ binary.PutUint64s vs, None).
Proof. reflexivity. Qed.

Lemma WriteTo_eq (s : CountMinSketch) (buf : Buffer) :
  shape_ok s -> well_typed s ->
  exists C, length C = Z.to_nat (w s)
    /\ WriteTo s buf = Done (codec_size s C, None, buf ++ encoding s).
Proof.
  intros Hs (Hd & Hw & Hcells). unfold WriteTo.
  rewrite !wrap64_small by done.
  rewrite !Buffer_Write_uint64.
  set (hdr := (buf ++ binary.PutUint64 (d s)) ++ binary.PutUint64 (w s)).
  match goal with
  | |- context [@for_from_try ?S ?E 0%nat ?n ?f ?x] =>
      destruct (@for_from_try_ok S E
        (fun r '(C, stream) =>
           length C = Z.to_nat (w s)
           /\ stream = hdr ++ flat_map binary.PutUint64s (take r (count s)))
        f n x) as ([C stream] & Hrun & HC & Hstream)
  end.
  - split; [apply length_replicate |]. by rewrite take_0, app_nil_r.
  - intros r [C stream] Hr [HC ->].
    destruct (matrix_row _ _ _ r Hs Hr) as (row & Hrow & Hlen).
    rewrite (WriteTo_row s r row C) by done. cbn.
    eexists (_, _). split; [done |]. split; [done |].
    rewrite (take_S_r _ _ row) by done.
    rewrite flat_map_app. cbn. by rewrite app_nil_r, app_assoc.
  - rewrite Hrun. cbn. exists C. split; [done |]. do 3 f_equal.
    rewrite Hstream. unfold hdr, encoding.
    rewrite take_ge by (destruct Hs as [-> _]; lia).
    rewrite flat_map_concat. by rewrite <- !app_assoc.
Qed.

Lemma length_concat_matrix n m (cnt : list (list Z)) :
  matrix_ok n m cnt -> length (concat cnt) = (n * m)%nat.
Proof.
  intros [Hlen Hrows]. subst n.
  induction Hrows as [|row cnt Hrow Hrows IH]; [done |].
  cbn [concat length]. rewrite length_app, IH, Hrow. lia.
Qed.

Lemma length_encoding s :
  shape_ok s -> is_uint64 (d s) -> is_uint64 (w s) ->
  Z.of_nat (length (encoding s)) = 16 + 8 * (d s * w s).
Proof.
  intros Hs Hd Hw. unfold encoding.
  rewrite !length_app, !length_PutUint64.
  fold (binary.PutUint64s (concat (count s))).
  rewrite length_PutUint64s, (length_concat_matrix _ _ _ Hs).
  unfold is_uint64 in *. lia.
Qed.

(** ** ReadFrom *)

(** [ReadFrom] on any buffer returns, and the receiver keeps its shape
    whether the stream was long enough or not. *)
Lemma ReadFrom_shape (stream : Buffer) (s : CountMinSketch) :
  shape_ok s ->
  exists n err stream' s',
    ReadFrom stream s = Done (n, err, stream', s') /\ shape_ok s'.
Proof.
  intros Hs. unfold ReadFrom.
  destruct (binary_Read_uint64 stream 0) as [[stream1 dv] [e|]] eqn:Hrd.
  { by exists 0, (Some e), stream1, s. }
  destruct (binary_Read_uint64 stream1 0) as [[stream2 wv] [e|]] eqn:Hrw.
  { by exists 0, (Some e), stream2, s. }
  assert (is_uint64 wv) as Hwv.
  { unfold binary_Read_uint64 in Hrw.
    destruct (io_ReadFull stream1 8) as [[st bs] [e|]]; [done |].
    injection Hrw as _ <-. apply Uint64_range. }
  cbn [d w set_count set_w set_d count].
  rewrite alloc_rows by (cbn; apply length_replicate).
  cbn.
  set (s1 := set_count _ _).
  assert (shape_ok s1) as Hs1.
  { apply matrix_replicate. cbn. unfold make_uint64s.
    by rewrite length_replicate, wrap64_small. }
  match goal with
  | |- context [@for_from_try ?S ?E 0%nat ?n ?f ?x] =>
      destruct (@for_from_try_inv S E
        (fun r '(s, C, stream) =>
           shape_ok s /\ d s = d s1 /\ w s = w s1
           /\ length C = Z.to_nat (w s1))
        (fun '(s, C, stream) => shape_ok s)
        f n 0%nat x) as ([[s' C] stream'] & e & Hrun & He)
  end.
  - repeat split; try apply Hs1. cbn. apply length_replicate.
  - intros r [[s0 C] st0] Hr (Hs0 & Hd0 & Hw0 & HC).
    destruct (binary_Read_uint64s st0 C) as [[st1 C'] err] eqn:Hread.
    pose proof (Read_uint64s_length _ _ _ _ _ Hread) as HC'.
    destruct err as [e|].
    + eexists (_, _, _), (Some e). split; [done |]. done.
    + rewrite fill_row; [| done | rewrite Hd0; cbn; lia | congruence].
      cbn. eexists (_, _, _), None. split; [done |].
      split; [| repeat split; [exact Hd0 | exact Hw0 | by rewrite HC']].
      apply (matrix_set_row _ _ _ _ _ Hs0). congruence.
  - rewrite Hrun. cbn.
    destruct e as [e|].
    + by exists 0, (Some e), stream', s'.
    + eexists _, None, stream', _. split; [done |]. apply He.
Qed.

(** Decoding what [WriteTo] wrote gives the sketch back, whatever the
    receiver held and whatever follows in the stream. *)
Lemma ReadFrom_encoding (s s0 : CountMinSketch) (rest : Buffer) :
  shape_ok s -> well_typed s ->
  exists C, length C = Z.to_nat (w s)
    /\ ReadFrom (encoding s ++ rest : Buffer) s0
       = Done (codec_size s C, None, rest,
               {| d := d s; w := w s; count := count s;
                  hasher := fnv.New64 |}).
Proof.
  intros Hs (Hd & Hw & Hcells). unfold ReadFrom, encoding.
  rewrite <- !app_assoc.
  rewrite (Read_uint64_PutUint64 (d s)) by done.
  rewrite (Read_uint64_PutUint64 (w s)) by done.
  cbn [d w set_count set_w set_d count].
  rewrite !wrap64_small by done.
  rewrite alloc_rows by (cbn; apply length_replicate).
  rewrite flat_map_concat. cbn.
  match goal with
  | |- context [@for_from_try ?S ?E 0%nat ?n ?f ?x] =>
      destruct (@for_from_try_ok S E
        (fun r '(st, C, stream) =>
           d st = d s /\ w st = w s /\ hasher st = hasher s0
           /\ length C = Z.to_nat (w s)
           /\ length (count st) = Z.to_nat (d s)
           /\ (forall k, (k < Z.to_nat (d s))%nat ->
                 count st !! k
                 = if decide (k < r)%nat then count s !! k
                   else Some (make_uint64s (w s)))
           /\ stream
              = flat_map (flat_map binary.PutUint64) (drop r (count s))
                ++ rest)
        f n x)
        as ([[st C] stream] & Hrun & Hdst & Hwst & Hhst & HC & Hlen & Hrows
            & Hstream)
  end.
  - cbn. repeat split; try done.
    + apply length_replicate.
    + apply length_replicate.
    + intros k Hk. rewrite decide_False by lia.
      by apply lookup_replicate_2.
  - intros r [[st C] stream] Hr (Hdst & Hwst & Hhst & HC & Hlen & Hrows & ->).
    destruct (matrix_row _ _ _ r Hs Hr) as (row & Hrow & Hlrow).
    assert (shape_ok st) as Hst.
    { split; [by rewrite Hdst |]. apply Forall_lookup. intros k rowk Hk.
      pose proof (lookup_lt_Some _ _ _ Hk) as Hlt.
      rewrite Hrows in Hk by lia. rewrite Hwst.
      destruct (decide (k < r)%nat).
      - destruct Hs as [_ Hrs]. by apply (proj1 (Forall_lookup _ _) Hrs k).
      - injection Hk as <-. apply length_replicate. }
    rewrite (drop_S _ row) by done. cbn [flat_map].
    rewrite <- app_assoc.
    fold (binary.PutUint64s row).
    rewrite (Read_uint64s_PutUint64s row); [| | lia].
    2: { by apply (proj1 (Forall_lookup _ _) Hcells r). }
    rewrite fill_row; [| done | lia | lia].
    cbn. eexists (_, _, _). split; [done |]. cbn.
    repeat split; try done.
    + by rewrite length_insert.
    + intros k Hk. destruct (decide (k = r)) as [->|Hne].
      * rewrite list_lookup_insert_eq by lia.
        by rewrite decide_True by lia.
      * rewrite list_lookup_insert_ne by done. rewrite Hrows by done.
        destruct (decide (k < r)%nat), (decide (k < Datatypes.S r)%nat);
          (done || lia).
  - rewrite Hrun. cbn. exists C. split; [done |].
    destruct st as [d1 w1 c1 hs1]. cbn in *. subst.
    unfold codec_size, set_hasher. cbn.
    rewrite drop_ge by (destruct Hs as [-> _]; lia). cbn.
    do 3 f_equal. apply list_eq. intros k.
    destruct (decide (k < Z.to_nat (d s))%nat) as [Hk|Hk].
    + rewrite Hrows by done. by rewrite decide_True by lia.
    + destruct Hs as [Hl _]. rewrite !lookup_ge_None_2; (done || lia).
Qed.

(** ** New *)

Lemma New_rows_eq (d0 w0 : Z) :
  New_rows d0 w0 (replicate (Z.to_nat d0) [])
  = Done (replicate (Z.to_nat d0) (make_uint64s w0)).
Proof.
  unfold New_rows, for_upto.
  rewrite (for_from_fill (fun _ => make_uint64s w0)).
  - f_equal. apply list_eq. intros k. rewrite list_lookup_fmap.
    destruct (decide (k < Z.to_nat d0)%nat) as [Hk|Hk].
    + rewrite lookup_seq_lt by done. cbn. symmetry.
      by apply lookup_replicate_2.
    + rewrite lookup_seq_ge by lia. cbn. symmetry.
      apply lookup_ge_None_2. rewrite length_replicate. lia.
  - apply length_replicate.
  - intros r l0 Hr Hl0. unfold store.
    destruct (lookup_lt_is_Some_2 l0 r) as [x Hx]; [lia |].
    by rewrite Hx.
Qed.

Lemma New_ok (d0 w0 : Z) (h : heap) :
  1 <= d0 -> 1 <= w0 ->
  New d0 w0 h
  = Done (Some (fresh (dom h)), None,
          <[fresh (dom h) := fresh_sketch d0 w0]> h).
Proof.
  intros Hd Hw. unfold New.
  destruct (Z.leb_spec d0 0); [lia |]. destruct (Z.leb_spec w0 0); [lia |].
  cbn [orb]. by rewrite New_rows_eq.
Qed.

Lemma New_zero (d0 w0 : Z) (h : heap) :
  d0 <= 0 \/ w0 <= 0 -> New d0 w0 h = Done (None, Some errNew, h).
Proof.
  intros Hz. unfold New.
  destruct (Z.leb_spec d0 0), (Z.leb_spec w0 0); (done || lia).
Qed.

Lemma shape_ok_fresh d0 w0 : shape_ok (fresh_sketch d0 w0).
Proof. apply matrix_replicate. apply length_replicate. Qed.

Lemma fresh_not_in (h : heap) : h !! fresh (dom h) = None.
Proof. apply not_elem_of_dom. apply is_fresh. Qed.

(** ** Estimate without rows *)

Lemma Estimate_total key s :
  shape_ok s -> 1 <= w s ->
  exists m, Estimate key s = Done (m, set_hasher s (hash_key key)).
Proof.
  intros Hs Hw. destruct (decide (1 <= d s)) as [Hd|Hd].
  - destruct (Estimate_spec key s Hs Hd Hw) as (m & Hm & _). eauto.
  - unfold Estimate. rewrite locations_eq by lia.
    replace (Z.to_nat (d s)) with 0%nat by lia. cbn. eauto.
Qed.

(** * The claims *)

(** C10: with [w >= 1] and [d] rows of [w] cells, every location the key
    maps to is below [w], the cell it names exists in its row, and
    neither [Update] nor [Estimate] panics. *)
Theorem locations_in_bounds (key : list byte) (amount : Z)
    (s : CountMinSketch) :
  shape_ok s -> 1 <= w s ->
  exists locs s0,
    locations key s = Done (locs, s0)
    /\ length locs = Z.to_nat (d s)
    /\ (forall r c, locs !! r = Some c ->
          0 <= c < w s /\ exists v, cell (count s) r c = Done v)
    /\ (exists s1, Update key amount s = Done (tt, s1))
    /\ (exists m s2, Estimate key s = Done (m, s2)).
Proof.
  intros Hs Hw. rewrite locations_eq by lia.
  eexists _, _. split; [done |]. split; [|split; [|split]].
  - by rewrite length_fmap, length_seq.
  - intros r c Hrc. apply locations_lookup in Hrc as [Hr ->].
    split; [by apply location_lt |].
    destruct (shape_cell key s r Hs Hw Hr) as (row & v & Hrow & _ & Hv).
    exists v. by apply (cell_Done _ _ _ row).
  - rewrite Update_eq by done. eauto.
  - destruct (Estimate_total key s Hs Hw) as (m & Hm). eauto.
Qed.

Lemma locations_in_bounds_witness :
  exists locs s0,
    locations key_abc sketch_abc = Done (locs, s0)
    /\ length locs = Z.to_nat (d sketch_abc)
    /\ (forall r c, locs !! r = Some c ->
          0 <= c < w sketch_abc
          /\ exists v, cell (count sketch_abc) r c = Done v)
    /\ (exists s1, Update key_abc 10 sketch_abc = Done (tt, s1))
    /\ (exists m s2, Estimate key_abc sketch_abc = Done (m, s2)).
Proof.
  apply (locations_in_bounds key_abc 10 sketch_abc).
  - vm_compute. repeat constructor.
  - vm_compute. discriminate.
Defined.

(** C2: [Estimate] returns the least of the cells
    [count[r][locations[r]]], [r < d], and leaves [d], [w] and every
    counter as they were (only the hasher state moves). *)
Theorem Estimate_min_readonly (key : list byte) (s : CountMinSketch) :
  shape_ok s -> 1 <= d s -> 1 <= w s ->
  exists m s' locs,
    Estimate key s = Done (m, s')
    /\ locations key s = Done (locs, s')
    /\ d s' = d s /\ w s' = w s /\ count s' = count s
    /\ length locs = Z.to_nat (d s)
    /\ (exists r c, locs !! r = Some c /\ cell (count s) r c = Done m)
    /\ (forall r c, locs !! r = Some c ->
          exists v, cell (count s) r c = Done v /\ m <= v).
Proof.
  intros Hs Hd Hw.
  destruct (Estimate_spec key s Hs Hd Hw) as (m & Hrun & (r0 & Hr0 & Hc0) & Hmin).
  exists m, (set_hasher s (hash_key key)),
    (location key (w s) <$> seq 0 (Z.to_nat (d s))).
  split; [done |]. split; [by apply locations_eq; lia |].
  do 3 (split; [done |]). split; [by rewrite length_fmap, length_seq |].
  split.
  - exists r0, (location key (w s) r0). split; [|done].
    rewrite list_lookup_fmap, lookup_seq_lt by done. done.
  - intros r c Hrc. apply locations_lookup in Hrc as [Hr ->].
    destruct (shape_cell key s r Hs Hw Hr) as (row & v & Hrow & _ & Hv).
    exists v. pose proof (cell_Done _ _ _ _ _ Hrow Hv) as Hcell.
    split; [done |]. by apply (Hmin r).
Qed.

Lemma Estimate_min_readonly_witness :
  exists m s' locs,
    Estimate key_abc sketch_abc = Done (m, s')
    /\ locations key_abc sketch_abc = Done (locs, s')
    /\ d s' = d sketch_abc /\ w s' = w sketch_abc
    /\ count s' = count sketch_abc
    /\ length locs = Z.to_nat (d sketch_abc)
    /\ (exists r c, locs !! r = Some c
          /\ cell (count sketch_abc) r c = Done m)
    /\ (forall r c, locs !! r = Some c ->
          exists v, cell (count sketch_abc) r c = Done v /\ m <= v).
Proof.
  apply (Estimate_min_readonly key_abc sketch_abc).
  - vm_compute. repeat constructor.
  - vm_compute. discriminate.
  - vm_compute. discriminate.
Defined.

(** C1, as stated, fails: a counter at [2^64 - 1] wraps to 0 on the
    next update, and the estimate of the key is then below the amount
    just added. *)
Lemma Update_Estimate_wraps :
  shape_ok saturated /\ 1 <= d saturated /\ 1 <= w saturated
  /\ Update key_abc (2 ^ 64 - 1) (fresh_sketch 1 1) = Done (tt, saturated)
  /\ exists s1 s2 m,
       Update key_abc 1 saturated = Done (tt, s1)
       /\ Estimate key_abc s1 = Done (m, s2)
       /\ m < 1.
Proof.
  split; [vm_compute; repeat constructor |].
  split; [vm_compute; discriminate |].
  split; [vm_compute; discriminate |].
  split; [by vm_compute |].
  exists (one_cell_after_wrap), (one_cell_after_wrap), 0.
  split; [by vm_compute |]. split; [by vm_compute |]. lia.
Qed.

(** C1, amended: when none of the counters the key maps to overflows,
    the estimate of the key right after [Update(key, amount)] is at
    least [amount]. *)
Theorem Update_then_Estimate_ge (key : list byte) (amount : Z)
    (s : CountMinSketch) :
  shape_ok s -> well_typed s -> 1 <= d s -> 1 <= w s -> 0 < amount ->
  (forall locs s0 r c v,
     locations key s = Done (locs, s0) -> locs !! r = Some c ->
     cell (count s) r c = Done v -> v + amount < 2 ^ 64) ->
  exists s1 m s2,
    Update key amount s = Done (tt, s1)
    /\ Estimate key s1 = Done (m, s2)
    /\ amount <= m.
Proof.
  intros Hs (_ & _ & Hcells) Hd Hw Ha Hroom.
  rewrite Update_eq by done.
  set (s1 := set_count (set_hasher s (hash_key key)) (updated key amount s)).
  assert (shape_ok s1) as Hs1 by (by apply shape_ok_Update).
  destruct (Estimate_spec key s1 Hs1 Hd Hw) as (m & Hrun & (r & Hr & Hc) & _).
  exists s1, m, (set_hasher s1 (hash_key key)).
  split; [done |]. split; [done |].
  cbn in Hr, Hc.
  destruct (shape_cell key s r Hs Hw Hr) as (row & v & Hrow & Hlen & Hv).
  apply cell_inv in Hc as (row' & Hrow' & Hm).
  rewrite (updated_lookup _ _ _ _ _ Hrow) in Hrow'. injection Hrow' as <-.
  unfold bump in Hm. rewrite Hv in Hm.
  rewrite list_lookup_insert_eq in Hm by (by eapply lookup_lt_Some).
  injection Hm as <-.
  assert (0 <= v) as Hv0.
  { pose proof (proj1 (Forall_lookup _ _) Hcells r row Hrow) as Hrowty.
    by destruct (proj1 (Forall_lookup _ _) Hrowty _ v Hv). }
  assert (v + amount < 2 ^ 64) as Hlt.
  { apply (Hroom (location key (w s) <$> seq 0 (Z.to_nat (d s)))
             (set_hasher s (hash_key key)) r (location key (w s) r) v).
    - apply locations_eq. lia.
    - by rewrite list_lookup_fmap, lookup_seq_lt.
    - by apply (cell_Done _ _ _ row). }
  unfold wrap64. rewrite Z.mod_small by lia. lia.
Qed.

Lemma Update_then_Estimate_ge_witness :
  exists s1 m s2,
    Update key_abc 10 sketch_abc = Done (tt, s1)
    /\ Estimate key_abc s1 = Done (m, s2)
    /\ 10 <= m.
Proof.
  apply (Update_then_Estimate_ge key_abc 10 sketch_abc).
  - vm_compute. repeat constructor.
  - apply (bool_decide_unpack (well_typed sketch_abc)). vm_compute. exact I.
  - vm_compute. discriminate.
  - vm_compute. discriminate.
  - lia.
  - intros locs s0 r c v Hl Hr Hc. vm_compute in Hl.
    injection Hl as <- <-.
    do 4 (destruct r as [|r];
          [cbn in Hr; injection Hr as <-; vm_compute in Hc;
           injection Hc as <-; vm_compute; reflexivity |]).
    cbn in Hr. discriminate.
Defined.

(** ** Row-major order *)

Lemma concat_lookup_matrix (m : nat) (cnt : list (list Z)) :
  Forall (fun row => length row = m) cnt ->
  forall r c row v,
    cnt !! r = Some row -> row !! c = Some v ->
    concat cnt !! (r * m + c)%nat = Some v.
Proof.
  induction 1 as [|row0 cnt Hrow0 Hrows IH]; intros r c row v Hr Hc.
  - done.
  - destruct r as [|r]; cbn [concat].
    + injection Hr as <-. cbn. by apply lookup_app_l_Some.
    + cbn in Hr. rewrite lookup_app_r by (rewrite Hrow0; lia).
      rewrite Hrow0.
      replace (Datatypes.S r * m + c - m)%nat with (r * m + c)%nat by lia.
      by apply (IH r c row).
Qed.

(** C3: for a sketch with [d >= 1] rows of [w >= 1] cells, what
    [WriteTo] writes, [ReadFrom] reads back into the same depth, width
    and counters, whatever the receiver held before and whatever
    follows in the stream. *)
Theorem ReadFrom_WriteTo_roundtrip (s s0 : CountMinSketch) (rest : Buffer) :
  shape_ok s -> well_typed s -> 1 <= d s -> 1 <= w s ->
  exists n buf,
    WriteTo s ([] : Buffer) = Done (n, None, buf)
    /\ exists n' s',
         ReadFrom (buf ++ rest : Buffer) s0 = Done (n', None, rest, s')
         /\ d s' = d s /\ w s' = w s /\ count s' = count s.
Proof.
  intros Hs Ht _ _.
  destruct (WriteTo_eq s [] Hs Ht) as (C & HC & Hw).
  destruct (ReadFrom_encoding s s0 rest Hs Ht) as (C' & HC' & Hr).
  exists (codec_size s C), (encoding s). split; [done |].
  eexists _, _. split; [exact Hr |]. done.
Qed.

Lemma ReadFrom_WriteTo_roundtrip_witness :
  exists n buf,
    WriteTo sketch_abc ([] : Buffer) = Done (n, None, buf)
    /\ exists n' s',
         ReadFrom (buf ++ [] : Buffer) (fresh_sketch 1 1)
         = Done (n', None, [], s')
         /\ d s' = d sketch_abc /\ w s' = w sketch_abc
         /\ count s' = count sketch_abc.
Proof.
  apply (ReadFrom_WriteTo_roundtrip sketch_abc (fresh_sketch 1 1) []).
  - vm_compute. repeat constructor.
  - apply (bool_decide_unpack (well_typed sketch_abc)). vm_compute. exact I.
  - vm_compute. discriminate.
  - vm_compute. discriminate.
Defined.

(** C4: [WriteTo] appends [d], then [w], then the counters row after
    row, each as eight bytes, high byte first; that is
    [16 + 8*d*w] bytes, the number it returns. *)
Theorem WriteTo_format (s : CountMinSketch) (buf : Buffer) :
  shape_ok s -> well_typed s -> 1 <= d s -> 1 <= w s ->
  16 + 8 * (d s * w s) < 2 ^ 63 ->
  let bytes :=
    binary.PutUint64 (d s) ++ binary.PutUint64 (w s)
    ++ flat_map binary.PutUint64 (concat (count s)) in
  WriteTo s buf = Done (16 + 8 * (d s * w s), None, buf ++ bytes)
  /\ Z.of_nat (length bytes) = 16 + 8 * (d s * w s)
  /\ length (binary.PutUint64 (d s)) = 8%nat
  /\ length (binary.PutUint64 (w s)) = 8%nat
  /\ binary.Uint64 (binary.PutUint64 (d s)) = d s
  /\ binary.Uint64 (binary.PutUint64 (w s)) = w s
  /\ (forall r c v,
        cell (count s) r (Z.of_nat c) = Done v ->
        concat (count s) !! (r * Z.to_nat (w s) + c)%nat = Some v
        /\ binary.Uint64 (binary.PutUint64 v) = v).
Proof.
  intros Hs Ht Hd Hw Hfit bytes.
  destruct (WriteTo_eq s buf Hs Ht) as (C & HC & Hrun).
  destruct Ht as (Htd & Htw & Htc).
  rewrite (codec_size_small s C) in Hrun by done.
  split; [exact Hrun |]. split; [by apply length_encoding |].
  do 2 (split; [apply length_PutUint64 |]).
  split; [rewrite <- (app_nil_r (binary.PutUint64 _));
          by apply Uint64_PutUint64 |].
  split; [rewrite <- (app_nil_r (binary.PutUint64 _));
          by apply Uint64_PutUint64 |].
  intros r c v Hcell. apply cell_inv in Hcell as (row & Hrow & Hv).
  rewrite Nat2Z.id in Hv. split.
  - destruct Hs as [_ Hrows]. by apply (concat_lookup_matrix _ _ Hrows r c row).
  - rewrite <- (app_nil_r (binary.PutUint64 _)). apply Uint64_PutUint64.
    pose proof (proj1 (Forall_lookup _ _) Htc r row Hrow) as Hrowty.
    by apply (proj1 (Forall_lookup _ _) Hrowty c v).
Qed.

Lemma WriteTo_format_witness :
  let bytes :=
    binary.PutUint64 (d sketch_abc) ++ binary.PutUint64 (w sketch_abc)
    ++ flat_map binary.PutUint64 (concat (count sketch_abc)) in
  WriteTo sketch_abc ([] : Buffer)
  = Done (16 + 8 * (d sketch_abc * w sketch_abc), None, [] ++ bytes)
  /\ Z.of_nat (length bytes) = 16 + 8 * (d sketch_abc * w sketch_abc)
  /\ length (binary.PutUint64 (d sketch_abc)) = 8%nat
  /\ length (binary.PutUint64 (w sketch_abc)) = 8%nat
  /\ binary.Uint64 (binary.PutUint64 (d sketch_abc)) = d sketch_abc
  /\ binary.Uint64 (binary.PutUint64 (w sketch_abc)) = w sketch_abc
  /\ (forall r c v,
        cell (count sketch_abc) r (Z.of_nat c) = Done v ->
        concat (count sketch_abc) !! (r * Z.to_nat (w sketch_abc) + c)%nat
        = Some v
        /\ binary.Uint64 (binary.PutUint64 v) = v).
Proof.
  apply (WriteTo_format sketch_abc []).
  - vm_compute. repeat constructor.
  - apply (bool_decide_unpack (well_typed sketch_abc)). vm_compute. exact I.
  - vm_compute. discriminate.
  - vm_compute. discriminate.
  - vm_compute. reflexivity.
Defined.

(** C5, as stated, fails: the sum of two counters wraps at [2^64]. *)
Lemma Merge_wraps :
  cell (count (one_cell (2 ^ 64 - 1))) 0 0 = Done (2 ^ 64 - 1)
  /\ cell (count (one_cell 1)) 0 0 = Done 1
  /\ exists h',
       Merge 0%nat 1%nat heap_overflow = Done (None, h')
       /\ h' !! 0%nat = Some (one_cell 0)
       /\ cell (count (one_cell 0)) 0 0 = Done 0
       /\ 0 <> (2 ^ 64 - 1) + 1.
Proof.
  split; [by vm_compute |]. split; [by vm_compute |].
  eexists. split; [vm_compute; reflexivity |].
  split; [by vm_compute |]. split; [by vm_compute |]. by vm_compute.
Qed.

(** C5, amended: for two different sketches of equal depth and width
    [Merge] returns no error; every counter of the receiver becomes its
    old value plus the argument's, modulo [2^64] (so the plain sum when
    that is below [2^64]); the argument is left as it was. *)
Theorem Merge_adds (p q : loc) (h : heap) (s other : CountMinSketch) :
  h !! p = Some s -> h !! q = Some other -> p <> q ->
  d s = d other -> w s = w other -> shape_ok s -> shape_ok other ->
  exists s',
    Merge p q h = Done (None, <[p := s']> h)
    /\ d s' = d s /\ w s' = w s /\ shape_ok s'
    /\ (forall r c x y,
          cell (count s) r c = Done x -> cell (count other) r c = Done y ->
          cell (count s') r c = Done (wrap64 (x + y))
          /\ (0 <= x + y < 2 ^ 64 -> cell (count s') r c = Done (x + y)))
    /\ <[p := s']> h !! q = Some other.
Proof.
  intros Hp Hq Hne Hd Hw Hs Ho.
  destruct (Merge_eq p q h s other Hp Hq Hd Hw Hs Ho) as (cnt & Hrun & Hm & Hcells).
  exists (set_count s cnt). split; [done |]. do 2 (split; [done |]).
  split; [exact Hm |]. split.
  - intros r c x y Hx Hy.
    apply cell_get2 in Hx. apply cell_get2 in Hy.
    assert (r < Z.to_nat (d s) /\ Z.to_nat c < Z.to_nat (w s))%nat as [Hr Hc].
    { unfold get2 in Hx. destruct (count s !! r) as [row|] eqn:Hrow; [|done].
      cbn in Hx. destruct Hs as [Hl Hrows].
      pose proof (lookup_lt_Some _ _ _ Hrow).
      pose proof (lookup_lt_Some _ _ _ Hx).
      pose proof (proj1 (Forall_lookup _ _) Hrows r row Hrow) as Hlr.
      cbn beta in Hlr. lia. }
    assert (cell (set_count s cnt).(count) r c = Done (wrap64 (x + y))) as Hres.
    { apply cell_get2. cbn. rewrite Hcells by done.
      unfold merged_cell. by rewrite Hx, Hy. }
    split; [done |]. intros Hsmall. rewrite Hres.
    unfold wrap64. by rewrite Z.mod_small.
  - by rewrite lookup_insert_ne.
Qed.

Lemma Merge_adds_witness :
  exists s',
    Merge 0%nat 1%nat heap_abc = Done (None, <[0%nat := s']> heap_abc)
    /\ d s' = d sketch_abc /\ w s' = w sketch_abc /\ shape_ok s'
    /\ (forall r c x y,
          cell (count sketch_abc) r c = Done x ->
          cell (count sketch_abc) r c = Done y ->
          cell (count s') r c = Done (wrap64 (x + y))
          /\ (0 <= x + y < 2 ^ 64 -> cell (count s') r c = Done (x + y)))
    /\ <[0%nat := s']> heap_abc !! 1%nat = Some sketch_abc.
Proof.
  apply (Merge_adds 0%nat 1%nat heap_abc sketch_abc sketch_abc).
  - vm_compute. reflexivity.
  - vm_compute. reflexivity.
  - lia.
  - reflexivity.
  - reflexivity.
  - vm_compute. repeat constructor.
  - vm_compute. repeat constructor.
Defined.

(** C6: when the depths or the widths differ [Merge] returns one of its
    two dimension errors and the heap, so both sketches, is as it was. *)
Theorem Merge_mismatch (p q : loc) (h : heap) (s other : CountMinSketch) :
  h !! p = Some s -> h !! q = Some other ->
  d s <> d other \/ w s <> w other ->
  exists e,
    Merge p q h = Done (Some e, h) /\ DimensionMismatch e
    /\ h !! p = Some s /\ h !! q = Some other.
Proof.
  intros Hp Hq Hdiff. unfold Merge, deref. rewrite Hp, Hq. cbn.
  destruct (Z.eqb_spec (d s) (d other)) as [Hd|Hd]; cbn.
  - destruct (Z.eqb_spec (w s) (w other)) as [Hw|Hw]; cbn.
    + tauto.
    + exists errWidth. repeat split; try done. by right.
  - exists errDepth. repeat split; try done. by left.
Qed.

Lemma Merge_mismatch_witness :
  exists e,
    Merge 0%nat 1%nat heap_mismatch = Done (Some e, heap_mismatch)
    /\ DimensionMismatch e
    /\ heap_mismatch !! 0%nat = Some (one_cell 3)
    /\ heap_mismatch !! 1%nat = Some two_rows.
Proof.
  apply (Merge_mismatch 0%nat 1%nat heap_mismatch (one_cell 3) two_rows).
  - vm_compute. reflexivity.
  - vm_compute. reflexivity.
  - left. vm_compute. discriminate.
Defined.

(** C7, as stated, fails on the flat variant: its [New] has no check of
    zero dimensions and returns a sketch with an empty counter slice. *)
Lemma Legacy_New_accepts_zero :
  (exists s, Legacy.New 0 0 = (Some s, None) /\ Legacy.count s = [])
  /\ (exists s, Legacy.New 0 20 = (Some s, None) /\ Legacy.count s = [])
  /\ (exists s, Legacy.New 4 0 = (Some s, None) /\ Legacy.count s = []).
Proof. repeat split; eexists; split; vm_compute; reflexivity. Qed.

(** C7, amended: the [New] of the matrix variant returns no sketch and
    an error when [d] or [w] is 0, and leaves the heap as it was, so
    nothing is allocated. *)
Theorem New_zero_fails (d0 w0 : Z) (h : heap) :
  d0 = 0 \/ w0 = 0 -> New d0 w0 h = Done (None, Some errNew, h).
Proof. intros Hz. apply New_zero. lia. Qed.

Lemma New_zero_fails_witness :
  New 0 20 ∅ = Done (None, Some errNew, ∅).
Proof. apply (New_zero_fails 0 20 ∅). left. reflexivity. Defined.

(** ** The shape of the counters across the operations *)

Lemma cells_shape s :
  shape_ok s -> 0 <= d s -> 0 <= w s -> cells s = d s * w s.
Proof.
  intros Hs Hd Hw. unfold cells.
  rewrite (length_concat_matrix (Z.to_nat (d s)) (Z.to_nat (w s))) by done.
  lia.
Qed.

Lemma Merge_shape (p q : loc) (h : heap) (s other : CountMinSketch) :
  h !! p = Some s -> h !! q = Some other -> shape_ok s -> shape_ok other ->
  exists e h' s' o',
    Merge p q h = Done (e, h')
    /\ h' !! p = Some s' /\ h' !! q = Some o'
    /\ shape_ok s' /\ shape_ok o'.
Proof.
  intros Hp Hq Hs Ho.
  destruct (decide (d s = d other)) as [Hd|Hd];
    [destruct (decide (w s = w other)) as [Hw|Hw] |].
  - destruct (Merge_eq p q h s other Hp Hq Hd Hw Hs Ho)
      as (cnt & Hrun & Hm & _).
    destruct (decide (p = q)) as [->|Hne].
    + exists None, (<[q := set_count s cnt]> h), (set_count s cnt),
        (set_count s cnt).
      by rewrite lookup_insert_eq.
    + exists None, (<[p := set_count s cnt]> h), (set_count s cnt), other.
      rewrite lookup_insert_eq, lookup_insert_ne by done. done.
  - unfold Merge, deref. rewrite Hp, Hq. cbn.
    rewrite (proj2 (Z.eqb_eq _ _) Hd). cbn.
    rewrite (proj2 (Z.eqb_neq _ _) Hw). cbn.
    by exists (Some errWidth), h, s, other.
  - unfold Merge, deref. rewrite Hp, Hq. cbn.
    rewrite (proj2 (Z.eqb_neq _ _) Hd). cbn.
    by exists (Some errDepth), h, s, other.
Qed.

Lemma New_shape (d0 w0 : Z) (h : heap) :
  (exists p s,
     New d0 w0 h = Done (Some p, None, <[p := s]> h)
     /\ h !! p = None /\ shape_ok s /\ cells s = d s * w s)
  \/ New d0 w0 h = Done (None, Some errNew, h).
Proof.
  destruct (decide (1 <= d0 /\ 1 <= w0)) as [[Hd Hw]|Hz].
  - left. exists (fresh (dom h)), (fresh_sketch d0 w0).
    split; [by apply New_ok |]. split; [apply fresh_not_in |].
    split; [apply shape_ok_fresh |].
    apply cells_shape; [apply shape_ok_fresh | cbn; lia | cbn; lia].
  - right. apply New_zero. lia.
Qed.

(** C9, as stated, fails: [UnmarshalJSON] stores the three fields of the
    payload as they come, so a payload with [d] 4, [w] 20 and no rows
    leaves a sketch of depth 4 and width 20 with no cell at all. *)
Lemma UnmarshalJSON_breaks_shape :
  exists s',
    UnmarshalJSON (inr payload_no_rows) (fresh_sketch 4 20) = (None, s')
    /\ d s' = 4 /\ w s' = 20 /\ cells s' = 0
    /\ cells s' <> d s' * w s'.
Proof. eexists. split; [reflexivity |]. by vm_compute. Qed.

(** C9, amended: a sketch that [New] returns has [d] rows of [w] cells,
    so [d*w] cells; [Update] (for [w >= 1]) and [Merge] keep that
    shape, and so does [ReadFrom], failing or not, on every stream
    whose header, when it has one, declares allocatable dimensions.
    [UnmarshalJSON] keeps it exactly when the payload itself has [d]
    rows of [w] cells, and leaves the sketch as it was when the
    decoding failed. *)
Theorem shape_kept (p q : loc) (h : heap) (s other : CountMinSketch) :
  h !! p = Some s -> h !! q = Some other ->
  shape_ok s -> shape_ok other ->
  (0 <= d s -> 0 <= w s -> cells s = d s * w s)
  /\ (forall d0 w0, allocatable d0 w0 ->
        (exists p' s',
           New d0 w0 h = Done (Some p', None, <[p' := s']> h)
           /\ h !! p' = None /\ shape_ok s' /\ cells s' = d s' * w s')
        \/ New d0 w0 h = Done (None, Some errNew, h))
  /\ (forall key amount, 1 <= w s ->
        exists s', Update key amount s = Done (tt, s') /\ shape_ok s')
  /\ (exists e h' s' o',
        Merge p q h = Done (e, h')
        /\ h' !! p = Some s' /\ h' !! q = Some o'
        /\ shape_ok s' /\ shape_ok o')
  /\ (forall stream : Buffer, header_allocatable stream ->
        exists n e stream' s',
          ReadFrom stream s = Done (n, e, stream', s') /\ shape_ok s')
  /\ (forall j, shape_ok (UnmarshalJSON (inr j) s).2 <-> payload_ok j)
  /\ (forall e, UnmarshalJSON (inl e) s = (Some e, s)).
Proof.
  intros Hp Hq Hs Ho.
  split; [by apply cells_shape |].
  split; [intros d0 w0 _; apply New_shape |].
  split.
  { intros key amount Hw. eexists. split; [by apply Update_eq |].
    by apply shape_ok_Update. }
  split; [by apply (Merge_shape p q h s other) |].
  split; [intros stream _; by apply ReadFrom_shape |].
  split; [intros j; reflexivity |]. done.
Qed.

Lemma shape_kept_witness :
  (0 <= d sketch_abc -> 0 <= w sketch_abc ->
   cells sketch_abc = d sketch_abc * w sketch_abc)
  /\ (forall d0 w0, allocatable d0 w0 ->
        (exists p' s',
           New d0 w0 heap_abc = Done (Some p', None, <[p' := s']> heap_abc)
           /\ heap_abc !! p' = None /\ shape_ok s'
           /\ cells s' = d s' * w s')
        \/ New d0 w0 heap_abc = Done (None, Some errNew, heap_abc))
  /\ (forall key amount, 1 <= w sketch_abc ->
        exists s', Update key amount sketch_abc = Done (tt, s')
                   /\ shape_ok s')
  /\ (exists e h' s' o',
        Merge 0%nat 1%nat heap_abc = Done (e, h')
        /\ h' !! 0%nat = Some s' /\ h' !! 1%nat = Some o'
        /\ shape_ok s' /\ shape_ok o')
  /\ (forall stream : Buffer, header_allocatable stream ->
        exists n e stream' s',
          ReadFrom stream sketch_abc = Done (n, e, stream', s')
          /\ shape_ok s')
  /\ (forall j, shape_ok (UnmarshalJSON (inr j) sketch_abc).2 <-> payload_ok j)
  /\ (forall e, UnmarshalJSON (inl e) sketch_abc = (Some e, sketch_abc)).
Proof.
  apply (shape_kept 0%nat 1%nat heap_abc sketch_abc sketch_abc).
  - vm_compute. reflexivity.
  - vm_compute. reflexivity.
  - vm_compute. repeat constructor.
  - vm_compute. repeat constructor.
Defined.

(** ** NewWithEstimates *)






(** * Further properties of the code *)

(** ** What one [Update] does to each cell *)

Lemma get2_updated key amount s r c :
  1 <= w s ->
  get2 (updated key amount s) r c
  = v ← get2 (count s) r c;
    Some (if decide (location key (w s) r = Z.of_nat c)
          then wrap64 (v + amount) else v).
Proof.
  intros Hw. unfold get2, updated. rewrite list_lookup_imap.
  destruct (count s !! r) as [row|]; [|done]. cbn.
  pose proof (location_lt key (w s) r Hw) as Hloc.
  unfold bump.
  destruct (decide (location key (w s) r = Z.of_nat c)) as [Hc|Hc].
  - rewrite Hc, Nat2Z.id.
    destruct (row !! c) as [v|] eqn:Hv; cbn.
    + rewrite list_lookup_insert_eq by (by eapply lookup_lt_Some). done.
    + by rewrite Hv.
  - destruct (row !! Z.to_nat (location key (w s) r)) as [v0|].
    + rewrite list_lookup_insert_ne by lia. by destruct (row !! c).
    + by destruct (row !! c).
Qed.

Lemma wrap64_add_l a b : wrap64 (wrap64 a + b) = wrap64 (a + b).
Proof. unfold wrap64. by rewrite Zplus_mod_idemp_l. Qed.

Lemma wrap64_add_r a b : wrap64 (a + wrap64 b) = wrap64 (a + b).
Proof. unfold wrap64. by rewrite Zplus_mod_idemp_r. Qed.

Lemma wrap64_idemp a : wrap64 (wrap64 a) = wrap64 a.
Proof. unfold wrap64. by rewrite Zmod_mod. Qed.

Lemma wrap64_range a : is_uint64 (wrap64 a).
Proof. unfold is_uint64, wrap64. apply Z.mod_pos_bound. lia. Qed.

Lemma well_typed_get2 s r c v :
  well_typed s -> get2 (count s) r c = Some v -> is_uint64 v.
Proof.
  intros (_ & _ & Hc). unfold get2.
  destruct (count s !! r) as [row|] eqn:Hrow; [|done]. cbn. intros Hv.
  pose proof (proj1 (Forall_lookup _ _) Hc r row Hrow) as Hr.
  by apply (proj1 (Forall_lookup _ _) Hr c v).
Qed.

Lemma well_typed_updated key amount s :
  well_typed s ->
  well_typed (set_count (set_hasher s (hash_key key))
                        (updated key amount s)).
Proof.
  intros (Hd & Hw & Hc). split; [done |]. split; [done |]. cbn.
  apply Forall_lookup. intros r row Hr.
  unfold updated in Hr. rewrite list_lookup_imap in Hr.
  destruct (count s !! r) as [row0|] eqn:Hrow0; [|done].
  cbn in Hr. injection Hr as <-.
  pose proof (proj1 (Forall_lookup _ _) Hc r row0 Hrow0) as Hr0.
  unfold bump. destruct (row0 !! _); [|done].
  apply Forall_insert; [done |]. apply wrap64_range.
Qed.

(** ** Streams of events *)

Lemma Updates_cells (events : list event) (s : CountMinSketch) :
  shape_ok s -> well_typed s -> 1 <= w s ->
  exists s',
    Updates events s = Done s'
    /\ shape_ok s' /\ well_typed s' /\ d s' = d s /\ w s' = w s
    /\ forall r c,
         get2 (count s') r c
         = v ← get2 (count s) r c;
           Some (wrap64 (v + hits (w s) r c events)).
Proof.
  revert s. induction events as [|[key amount] events IH]; intros s Hs Ht Hw.
  - exists s. cbn. do 5 (split; [done |]).
    intros r c. destruct (get2 (count s) r c) as [v|] eqn:Hv; cbn; [|done].
    rewrite Z.add_0_r, wrap64_small; [done |].
    by apply (well_typed_get2 s r c).
  - cbn [Updates]. rewrite Update_eq by done. cbn.
    set (s1 := set_count (set_hasher s (hash_key key))
                         (updated key amount s)).
    destruct (IH s1) as (s' & Hrun & Hs' & Ht' & Hd' & Hw' & Hcells);
      [by apply shape_ok_Update | by apply well_typed_updated | done |].
    exists s'. split; [done |]. do 4 (split; [done |]).
    intros r c. rewrite Hcells. cbn [s1 set_count count w set_hasher].
    rewrite get2_updated by done.
    destruct (get2 (count s) r c) as [v|]; cbn; [|done]. f_equal.
    fold (hits (w s) r c events).
    destruct (decide (location key (w s) r = Z.of_nat c)).
    + rewrite wrap64_add_l. f_equal. lia.
    + done.
Qed.

Lemma cell_updated key key' amount s r v :
  1 <= w s ->
  cell (count s) r (location key' (w s) r) = Done v ->
  cell (updated key amount s) r (location key' (w s) r)
  = Done (if decide (location key (w s) r = location key' (w s) r)
          then wrap64 (v + amount) else v).
Proof.
  intros Hw Hv. apply cell_get2. apply cell_get2 in Hv.
  rewrite get2_updated by done. rewrite Hv. cbn.
  pose proof (location_lt key' (w s) r Hw).
  by rewrite Z2Nat.id by lia.
Qed.

Lemma get2_fresh d0 w0 r c :
  (r < Z.to_nat d0)%nat -> (c < Z.to_nat w0)%nat ->
  get2 (count (fresh_sketch d0 w0)) r c = Some 0.
Proof.
  intros Hr Hc. unfold get2, fresh_sketch, make_uint64s. cbn.
  rewrite lookup_replicate_2 by done. cbn.
  by rewrite lookup_replicate_2.
Qed.

Lemma well_typed_fresh d0 w0 :
  is_uint64 d0 -> is_uint64 w0 -> well_typed (fresh_sketch d0 w0).
Proof.
  intros Hd Hw. split; [done |]. split; [done |]. cbn.
  apply Forall_replicate. apply Forall_replicate. by vm_compute.
Qed.

Lemma hits_bounds key wid r (events : list event) :
  1 <= wid -> Forall (fun e => 0 <= e.2) events ->
  0 <= true_count key events
  /\ true_count key events
     <= hits wid r (Z.to_nat (location key wid r)) events
  /\ hits wid r (Z.to_nat (location key wid r)) events <= total events.
Proof.
  intros Hw. pose proof (location_lt key wid r Hw) as Hloc.
  unfold true_count, hits, total. rewrite Z2Nat.id by lia.
  induction 1 as [|[k a] events Ha Hall IH]; cbn; [lia |].
  cbn in Ha. destruct (decide (k = key)) as [->|Hk].
  - rewrite decide_True by done. lia.
  - destruct (decide (location k wid r = location key wid r)); lia.
Qed.

(** ** Estimates against the true counts *)

(** X1: feed any stream of events with non-negative amounts to a sketch
    just made by [New] with allocatable dimensions; as long as the
    amounts sum to less than [2^64], [Estimate] of a key is at least
    the sum of the amounts of that key (it never under-estimates) and
    at most the sum of all amounts. *)
Theorem Estimate_never_under (d0 w0 : Z) (h : heap) (events : list event)
    (key : list byte) :
  1 <= d0 -> 1 <= w0 -> allocatable d0 w0 ->
  Forall (fun e => 0 <= e.2) events -> total events < 2 ^ 64 ->
  exists p s0 s m s',
    New d0 w0 h = Done (Some p, None, <[p := s0]> h)
    /\ Updates events s0 = Done s
    /\ Estimate key s = Done (m, s')
    /\ true_count key events <= m <= total events.
Proof.
  intros Hd Hw (Hda & Hwa & _) Hpos Htot. unfold max_cells in Hda, Hwa.
  exists (fresh (dom h)), (fresh_sketch d0 w0).
  destruct (Updates_cells events (fresh_sketch d0 w0))
    as (s & Hrun & Hs & Ht & Hds & Hws & Hcells).
  { apply shape_ok_fresh. }
  { apply well_typed_fresh; unfold is_uint64; lia. }
  { cbn. lia. }
  cbn [fresh_sketch d w] in Hds, Hws, Hcells.
  destruct (Estimate_spec key s Hs) as (m & Hest & (r & Hr & Hm) & _);
    [lia | lia |].
  exists s, m, (set_hasher s (hash_key key)).
  split; [apply New_ok; lia |]. split; [done |]. split; [done |].
  apply cell_get2 in Hm. rewrite Hcells, Hws in Hm.
  pose proof (location_lt key w0 r ltac:(lia)) as Hloc.
  rewrite get2_fresh in Hm by lia. cbn in Hm. injection Hm as <-.
  destruct (hits_bounds key w0 r events ltac:(lia) Hpos) as (H0 & Hlo & Hhi).
  rewrite wrap64_small by (unfold is_uint64; lia). lia.
Qed.

Lemma Estimate_never_under_witness :
  exists p s0 s m s',
    New 4 20 ∅ = Done (Some p, None, <[p := s0]> ∅)
    /\ Updates [(key_abc, 10); ([], 5); (key_abc, 7)] s0 = Done s
    /\ Estimate key_abc s = Done (m, s')
    /\ true_count key_abc [(key_abc, 10); ([], 5); (key_abc, 7)] <= m
       <= total [(key_abc, 10); ([], 5); (key_abc, 7)].
Proof.
  apply (Estimate_never_under 4 20 ∅ [(key_abc, 10); ([], 5); (key_abc, 7)]
           key_abc).
  - lia.
  - lia.
  - vm_compute. intuition discriminate.
  - repeat constructor; cbn; lia.
  - vm_compute. reflexivity.
Defined.

(** X2: when none of the counters of a key would pass [2^64 - 1],
    [Update(key, amount)] raises [Estimate(key)] by exactly
    [amount]. *)
Theorem Update_raises_Estimate (key : list byte) (amount : Z)
    (s : CountMinSketch) :
  shape_ok s -> well_typed s -> 1 <= d s -> 1 <= w s -> 0 <= amount ->
  (forall r v, cell (count s) r (location key (w s) r) = Done v ->
               v + amount < 2 ^ 64) ->
  exists m s0 s1 m' s2,
    Estimate key s = Done (m, s0)
    /\ Update key amount s = Done (tt, s1)
    /\ Estimate key s1 = Done (m', s2)
    /\ m' = m + amount.
Proof.
  intros Hs Ht Hd Hw Ha Hroom.
  destruct (Estimate_spec key s Hs Hd Hw) as (m & Hest & (r0 & Hr0 & Hm) & Hmin).
  set (s1 := set_count (set_hasher s (hash_key key)) (updated key amount s)).
  assert (shape_ok s1) as Hs1 by (by apply shape_ok_Update).
  destruct (Estimate_spec key s1 Hs1 Hd Hw)
    as (m' & Hest' & (r1 & Hr1 & Hm') & Hmin').
  exists m, (set_hasher s (hash_key key)), s1, m',
    (set_hasher s1 (hash_key key)).
  split; [done |]. split; [by apply Update_eq |]. split; [done |].
  cbn [s1 set_count set_hasher count d w] in Hr1, Hm', Hmin'.
  assert (forall r v, cell (count s) r (location key (w s) r) = Done v ->
            cell (updated key amount s) r (location key (w s) r)
            = Done (v + amount)) as Hup.
  { intros r v Hv. rewrite (cell_updated key key amount s r v) by done.
    rewrite decide_True by done. rewrite wrap64_small; [done |].
    apply cell_get2 in Hv as Hv'.
    pose proof (well_typed_get2 s _ _ _ Ht Hv') as Hty.
    pose proof (Hroom r v Hv). unfold is_uint64 in *. lia. }
  destruct (shape_cell key s r1 Hs Hw Hr1) as (row & v1 & Hrow & _ & Hv1).
  pose proof (cell_Done _ _ _ _ _ Hrow Hv1) as Hc1.
  rewrite (Hup r1 v1 Hc1) in Hm'. injection Hm' as <-.
  pose proof (Hmin r1 v1 Hc1 Hr1).
  pose proof (Hmin' r0 (m + amount) (Hup r0 m Hm) Hr0). lia.
Qed.

Lemma Update_raises_Estimate_witness :
  exists m s0 s1 m' s2,
    Estimate key_abc sketch_abc = Done (m, s0)
    /\ Update key_abc 5 sketch_abc = Done (tt, s1)
    /\ Estimate key_abc s1 = Done (m', s2)
    /\ m' = m + 5.
Proof.
  apply (Update_raises_Estimate key_abc 5 sketch_abc).
  - vm_compute. repeat constructor.
  - apply (bool_decide_unpack (well_typed sketch_abc)). vm_compute. exact I.
  - vm_compute. discriminate.
  - vm_compute. discriminate.
  - lia.
  - intros r v Hv.
    assert (v <= 10); [|lia].
    destruct r as [|[|[|[|r]]]]; vm_compute in Hv; try discriminate;
      injection Hv as <-; lia.
Defined.

(** X3: under the same condition [Update(key, amount)] never lowers the
    estimate of any other key, and raises it by at most [amount]. *)
Theorem Update_Estimate_other (key key' : list byte) (amount : Z)
    (s : CountMinSketch) :
  shape_ok s -> well_typed s -> 1 <= d s -> 1 <= w s -> 0 <= amount ->
  (forall r v, cell (count s) r (location key (w s) r) = Done v ->
               v + amount < 2 ^ 64) ->
  exists m s0 s1 m' s2,
    Estimate key' s = Done (m, s0)
    /\ Update key amount s = Done (tt, s1)
    /\ Estimate key' s1 = Done (m', s2)
    /\ m <= m' <= m + amount.
Proof.
  intros Hs Ht Hd Hw Ha Hroom.
  destruct (Estimate_spec key' s Hs Hd Hw)
    as (m & Hest & (r0 & Hr0 & Hm) & Hmin).
  set (s1 := set_count (set_hasher s (hash_key key)) (updated key amount s)).
  assert (shape_ok s1) as Hs1 by (by apply shape_ok_Update).
  destruct (Estimate_spec key' s1 Hs1 Hd Hw)
    as (m' & Hest' & (r1 & Hr1 & Hm') & Hmin').
  exists m, (set_hasher s (hash_key key')), s1, m',
    (set_hasher s1 (hash_key key')).
  split; [done |]. split; [by apply Update_eq |]. split; [done |].
  cbn [s1 set_count set_hasher count d w] in Hr1, Hm', Hmin'.
  assert (forall r v, cell (count s) r (location key' (w s) r) = Done v ->
            exists v', cell (updated key amount s) r (location key' (w s) r)
                       = Done v' /\ v <= v' <= v + amount) as Hup.
  { intros r v Hv. rewrite (cell_updated key key' amount s r v) by done.
    destruct (decide (location key (w s) r = location key' (w s) r))
      as [Heq|Hne]; [|exists v; split; [done | lia]].
    exists (v + amount). split; [|lia].
    rewrite wrap64_small; [done |].
    apply cell_get2 in Hv as Hv'.
    pose proof (well_typed_get2 s _ _ _ Ht Hv') as Hty.
    rewrite <- Heq in Hv. pose proof (Hroom r v Hv).
    unfold is_uint64 in *. lia. }
  destruct (shape_cell key' s r1 Hs Hw Hr1) as (row & v1 & Hrow & _ & Hv1).
  pose proof (cell_Done _ _ _ _ _ Hrow Hv1) as Hc1.
  destruct (Hup r1 v1 Hc1) as (v1' & Hc1' & Hb1).
  rewrite Hc1' in Hm'. injection Hm' as <-.
  pose proof (Hmin r1 v1 Hc1 Hr1).
  destruct (Hup r0 m Hm) as (v0' & Hc0' & Hb0).
  pose proof (Hmin' r0 v0' Hc0' Hr0). lia.
Qed.

Lemma Update_Estimate_other_witness :
  exists m s0 s1 m' s2,
    Estimate [] sketch_abc = Done (m, s0)
    /\ Update key_abc 5 sketch_abc = Done (tt, s1)
    /\ Estimate [] s1 = Done (m', s2)
    /\ m <= m' <= m + 5.
Proof.
  apply (Update_Estimate_other key_abc [] 5 sketch_abc).
  - vm_compute. repeat constructor.
  - apply (bool_decide_unpack (well_typed sketch_abc)). vm_compute. exact I.
  - vm_compute. discriminate.
  - vm_compute. discriminate.
  - lia.
  - intros r v Hv.
    assert (v <= 10); [|lia].
    destruct r as [|[|[|[|r]]]]; vm_compute in Hv; try discriminate;
      injection Hv as <-; lia.
Defined.

(** ** Counter matrices are determined by their cells *)

Lemma matrix_ext n m (A B : list (list Z)) :
  matrix_ok n m A -> matrix_ok n m B ->
  (forall r c, get2 A r c = get2 B r c) -> A = B.
Proof.
  intros [HlA HrA] [HlB HrB] Hcells. apply list_eq. intros r.
  destruct (A !! r) as [ra|] eqn:Ha.
  - destruct (lookup_lt_is_Some_2 B r) as [rb Hb].
    { apply lookup_lt_Some in Ha. lia. }
    rewrite Hb. f_equal. apply list_eq. intros c.
    specialize (Hcells r c). unfold get2 in Hcells.
    by rewrite Ha, Hb in Hcells.
  - symmetry. apply lookup_ge_None_2. apply lookup_ge_None_1 in Ha. lia.
Qed.

(** X4: two updates commute: in either order they leave the same
    depth, width and counters. *)
Theorem Update_comm (k1 k2 : list byte) (a1 a2 : Z) (s : CountMinSketch) :
  shape_ok s -> 1 <= w s ->
  exists s1 s12 s2 s21,
    Update k1 a1 s = Done (tt, s1) /\ Update k2 a2 s1 = Done (tt, s12)
    /\ Update k2 a2 s = Done (tt, s2) /\ Update k1 a1 s2 = Done (tt, s21)
    /\ d s12 = d s21 /\ w s12 = w s21 /\ count s12 = count s21.
Proof.
  intros Hs Hw.
  set (s1 := set_count (set_hasher s (hash_key k1)) (updated k1 a1 s)).
  set (s2 := set_count (set_hasher s (hash_key k2)) (updated k2 a2 s)).
  assert (shape_ok s1) as Hs1 by (by apply shape_ok_Update).
  assert (shape_ok s2) as Hs2 by (by apply shape_ok_Update).
  exists s1, (set_count (set_hasher s1 (hash_key k2)) (updated k2 a2 s1)),
    s2, (set_count (set_hasher s2 (hash_key k1)) (updated k1 a1 s2)).
  split; [by apply Update_eq |]. split; [by apply Update_eq |].
  split; [by apply Update_eq |]. split; [by apply Update_eq |].
  split; [done |]. split; [done |]. cbn [set_count count].
  apply (matrix_ext (Z.to_nat (d s)) (Z.to_nat (w s))).
  - by apply (shape_ok_Update k2 a2 s1).
  - by apply (shape_ok_Update k1 a1 s2).
  - intros r c. rewrite !get2_updated by done.
    cbn [s1 s2 set_count set_hasher count w].
    rewrite !get2_updated by done.
    destruct (get2 (count s) r c) as [v|]; cbn; [|done]. f_equal.
    destruct (decide (location k1 (w s) r = Z.of_nat c)),
      (decide (location k2 (w s) r = Z.of_nat c)); try done.
    rewrite !wrap64_add_l. f_equal. lia.
Qed.

Lemma Update_comm_witness :
  exists s1 s12 s2 s21,
    Update key_abc 3 sketch_abc = Done (tt, s1)
    /\ Update [] 4 s1 = Done (tt, s12)
    /\ Update [] 4 sketch_abc = Done (tt, s2)
    /\ Update key_abc 3 s2 = Done (tt, s21)
    /\ d s12 = d s21 /\ w s12 = w s21 /\ count s12 = count s21.
Proof.
  apply (Update_comm key_abc [] 3 4 sketch_abc).
  - vm_compute. repeat constructor.
  - vm_compute. discriminate.
Defined.

(** ** Merging *)

Lemma get2_outside n m cnt r c :
  matrix_ok n m cnt -> ~ (r < n /\ c < m)%nat -> get2 cnt r c = None.
Proof.
  intros [Hl Hrows] Hout. unfold get2.
  destruct (cnt !! r) as [row|] eqn:Hrow; [|done]. cbn.
  apply lookup_ge_None_2.
  pose proof (lookup_lt_Some _ _ _ Hrow).
  pose proof (proj1 (Forall_lookup _ _) Hrows r row Hrow) as Hlen.
  cbn beta in Hlen. lia.
Qed.

(** [Merge_eq] with the cells stated everywhere. *)
Lemma Merge_cells (p q : loc) (h : heap) (s other : CountMinSketch) :
  h !! p = Some s -> h !! q = Some other ->
  d s = d other -> w s = w other -> shape_ok s -> shape_ok other ->
  exists cnt,
    Merge p q h = Done (None, <[p := set_count s cnt]> h)
    /\ matrix_ok (Z.to_nat (d s)) (Z.to_nat (w s)) cnt
    /\ forall r c, get2 cnt r c = merged_cell (count s) (count other) r c.
Proof.
  intros Hp Hq Hd Hw Hs Ho.
  destruct (Merge_eq p q h s other Hp Hq Hd Hw Hs Ho) as (cnt & Hrun & Hm & Hc).
  exists cnt. split; [done |]. split; [done |]. intros r c.
  destruct (decide (r < Z.to_nat (d s) /\ c < Z.to_nat (w s))%nat)
    as [[Hr Hcw]|Hout]; [by apply Hc |].
  rewrite (get2_outside _ _ _ _ _ Hm Hout). unfold merged_cell.
  by rewrite (get2_outside _ _ _ _ _ (proj1 (shape_ok_matrix s) Hs) Hout).
Qed.

(** X5: a sketch merged with itself: the loop reads each cell of the
    argument after it has written the cells before it, and still every
    counter ends as twice its old value modulo [2^64]. *)
Theorem Merge_self (p : loc) (h : heap) (s : CountMinSketch) :
  h !! p = Some s -> shape_ok s ->
  exists s',
    Merge p p h = Done (None, <[p := s']> h)
    /\ d s' = d s /\ w s' = w s /\ shape_ok s'
    /\ forall r c,
         get2 (count s') r c
         = v ← get2 (count s) r c; Some (wrap64 (2 * v)).
Proof.
  intros Hp Hs.
  destruct (Merge_cells p p h s s Hp Hp eq_refl eq_refl Hs Hs)
    as (cnt & Hrun & Hm & Hc).
  exists (set_count s cnt). split; [done |]. do 2 (split; [done |]).
  split; [exact Hm |]. intros r c. cbn. rewrite Hc. unfold merged_cell.
  destruct (get2 (count s) r c) as [v|]; cbn; [|done].
  do 2 f_equal. lia.
Qed.

Lemma Merge_self_witness :
  exists s',
    Merge 0%nat 0%nat heap_abc = Done (None, <[0%nat := s']> heap_abc)
    /\ d s' = d sketch_abc /\ w s' = w sketch_abc /\ shape_ok s'
    /\ forall r c,
         get2 (count s') r c
         = v ← get2 (count sketch_abc) r c; Some (wrap64 (2 * v)).
Proof.
  apply (Merge_self 0%nat heap_abc sketch_abc).
  - vm_compute. reflexivity.
  - vm_compute. repeat constructor.
Defined.

(** X6: merging is commutative on the counters: A after [A.Merge(B)]
    holds the same counters as B after [B.Merge(A)], overflow or
    not. *)
Theorem Merge_comm (p q : loc) (h : heap) (s other : CountMinSketch) :
  h !! p = Some s -> h !! q = Some other ->
  d s = d other -> w s = w other -> shape_ok s -> shape_ok other ->
  exists s' other',
    Merge p q h = Done (None, <[p := s']> h)
    /\ Merge q p h = Done (None, <[q := other']> h)
    /\ d s' = d other' /\ w s' = w other' /\ count s' = count other'.
Proof.
  intros Hp Hq Hd Hw Hs Ho.
  destruct (Merge_cells p q h s other Hp Hq Hd Hw Hs Ho)
    as (cnt & Hrun & Hm & Hc).
  destruct (Merge_cells q p h other s Hq Hp (eq_sym Hd) (eq_sym Hw) Ho Hs)
    as (cnt' & Hrun' & Hm' & Hc').
  exists (set_count s cnt), (set_count other cnt').
  do 4 (split; [done |]). cbn.
  rewrite <- Hd, <- Hw in Hm'.
  apply (matrix_ext _ _ _ _ Hm Hm'). intros r c. rewrite Hc, Hc'.
  unfold merged_cell.
  destruct (get2 (count s) r c) as [x|], (get2 (count other) r c) as [y|];
    cbn; try done.
  do 2 f_equal. lia.
Qed.

Lemma Merge_comm_witness :
  exists s' other',
    Merge 0%nat 1%nat heap_overflow = Done (None, <[0%nat := s']> heap_overflow)
    /\ Merge 1%nat 0%nat heap_overflow
       = Done (None, <[1%nat := other']> heap_overflow)
    /\ d s' = d other' /\ w s' = w other' /\ count s' = count other'.
Proof.
  apply (Merge_comm 0%nat 1%nat heap_overflow (one_cell (2 ^ 64 - 1))
           (one_cell 1)).
  - vm_compute. reflexivity.
  - vm_compute. reflexivity.
  - reflexivity.
  - reflexivity.
  - vm_compute. repeat constructor.
  - vm_compute. repeat constructor.
Defined.

Lemma hits_app wid r c (ev1 ev2 : list event) :
  hits wid r c (ev1 ++ ev2) = hits wid r c ev1 + hits wid r c ev2.
Proof.
  unfold hits. induction ev1 as [|e ev1 IH]; cbn; [done |].
  destruct (decide _); lia.
Qed.

(** X7: counting two streams in two sketches and merging them gives
    the counters of one sketch that counted both streams, overflow or
    not. *)
Theorem Merge_Updates (d0 w0 : Z) (ev1 ev2 : list event) (p q : loc)
    (h : heap) (A B : CountMinSketch) :
  1 <= d0 < 2 ^ 64 -> 1 <= w0 < 2 ^ 64 ->
  Updates ev1 (fresh_sketch d0 w0) = Done A ->
  Updates ev2 (fresh_sketch d0 w0) = Done B ->
  h !! p = Some A -> h !! q = Some B ->
  exists A' AB,
    Merge p q h = Done (None, <[p := A']> h)
    /\ Updates (ev1 ++ ev2) (fresh_sketch d0 w0) = Done AB
    /\ d A' = d AB /\ w A' = w AB /\ count A' = count AB.
Proof.
  intros Hd Hw HA HB Hp Hq.
  assert (well_typed (fresh_sketch d0 w0)) as Ht0
    by (apply well_typed_fresh; unfold is_uint64; lia).
  assert (1 <= w (fresh_sketch d0 w0)) as Hw0 by (cbn; lia).
  destruct (Updates_cells ev1 _ (shape_ok_fresh d0 w0) Ht0 Hw0)
    as (A0 & HA0 & HsA & _ & HdA & HwA & HcA).
  destruct (Updates_cells ev2 _ (shape_ok_fresh d0 w0) Ht0 Hw0)
    as (B0 & HB0 & HsB & _ & HdB & HwB & HcB).
  destruct (Updates_cells (ev1 ++ ev2) _ (shape_ok_fresh d0 w0) Ht0 Hw0)
    as (AB & HAB & HsAB & _ & HdAB & HwAB & HcAB).
  rewrite HA in HA0. injection HA0 as <-.
  rewrite HB in HB0. injection HB0 as <-.
  destruct (Merge_cells p q h A B Hp Hq) as (cnt & Hrun & Hm & Hc);
    [congruence | congruence | done | done |].
  exists (set_count A cnt), AB.
  split; [done |]. split; [done |].
  split; [cbn; congruence |]. split; [cbn; congruence |]. cbn.
  apply (matrix_ext _ _ _ _ Hm).
  { rewrite HdA, HwA, <- HdAB, <- HwAB. exact HsAB. }
  intros r c. rewrite Hc, HcAB. unfold merged_cell. rewrite HcA, HcB.
  destruct (get2 (count (fresh_sketch d0 w0)) r c) as [v|] eqn:Hv;
    cbn; [|done].
  assert (v = 0) as ->.
  { destruct (decide (r < Z.to_nat d0 /\ c < Z.to_nat w0)%nat)
      as [[Hr Hcw]|Hout].
    - rewrite get2_fresh in Hv by done. congruence.
    - rewrite (get2_outside (Z.to_nat d0) (Z.to_nat w0)) in Hv;
        [done | apply (shape_ok_fresh d0 w0) | done]. }
  rewrite hits_app, wrap64_add_l, wrap64_add_r. do 2 f_equal; lia.
Qed.

Lemma Merge_Updates_witness :
  exists A' AB,
    Merge 0%nat 1%nat heap_counted = Done (None, <[0%nat := A']> heap_counted)
    /\ Updates ([(key_abc, 10)] ++ [(key_abc, 10)]) (fresh_sketch 4 20)
       = Done AB
    /\ d A' = d AB /\ w A' = w AB /\ count A' = count AB.
Proof.
  apply (Merge_Updates 4 20 [(key_abc, 10)] [(key_abc, 10)] 0%nat 1%nat
           heap_counted sketch_counted sketch_counted).
  - lia.
  - lia.
  - vm_compute. reflexivity.
  - vm_compute. reflexivity.
  - vm_compute. reflexivity.
  - vm_compute. reflexivity.
Defined.

(** ** The binary codec on short and foreign input *)

Lemma Estimate_hasher key (s s' : CountMinSketch) :
  d s' = d s -> w s' = w s -> count s' = count s ->
  Estimate key s' = Estimate key s.
Proof.
  destruct s as [d1 w1 c1 hs1], s' as [d2 w2 c2 hs2]. cbn.
  intros -> -> ->. reflexivity.
Qed.

(** X8: for a sketch with [d >= 1] rows of [w >= 1] cells, [GobDecode]
    of what [GobEncode] returns gives, in any receiver, a sketch of the
    same depth, width and counters with a new hasher, which answers
    every [Estimate] as the encoded sketch does. *)
Theorem GobDecode_GobEncode (s s0 : CountMinSketch) :
  shape_ok s -> well_typed s -> 1 <= d s -> 1 <= w s ->
  exists data s',
    GobEncode s = Done (Some data, None)
    /\ GobDecode data s0 = Done (None, s')
    /\ d s' = d s /\ w s' = w s /\ count s' = count s
    /\ hasher s' = fnv.New64
    /\ forall key, Estimate key s' = Estimate key s.
Proof.
  intros Hs Ht _ _.
  destruct (WriteTo_eq s [] Hs Ht) as (C & HC & Hw).
  destruct (ReadFrom_encoding s s0 [] Hs Ht) as (C' & HC' & Hr).
  exists (encoding s). eexists. split.
  { unfold GobEncode. rewrite Hw. reflexivity. }
  split.
  { unfold GobDecode. rewrite app_nil_r in Hr. rewrite Hr. reflexivity. }
  do 4 (split; [done |]). intros key. by apply Estimate_hasher.
Qed.

Lemma GobDecode_GobEncode_witness :
  exists data s',
    GobEncode sketch_counted = Done (Some data, None)
    /\ GobDecode data (one_cell 3) = Done (None, s')
    /\ d s' = d sketch_counted /\ w s' = w sketch_counted
    /\ count s' = count sketch_counted
    /\ hasher s' = fnv.New64
    /\ forall key, Estimate key s' = Estimate key sketch_counted.
Proof.
  apply (GobDecode_GobEncode sketch_counted (one_cell 3)).
  - vm_compute. repeat constructor.
  - apply (bool_decide_unpack (well_typed sketch_counted)).
    vm_compute. exact I.
  - vm_compute. discriminate.
  - vm_compute. discriminate.
Defined.

(** X9: a stream too short to hold the two header words: [ReadFrom]
    returns 0 and [io.EOF] (nothing to read where a word starts) or
    [io.ErrUnexpectedEOF] (a word cut short), and the receiver is as it
    was. *)
Theorem ReadFrom_short_header (stream : Buffer) (s : CountMinSketch) :
  (length stream < 16)%nat ->
  exists e stream',
    ReadFrom stream s = Done (0, Some e, stream', s)
    /\ (e = EOF <-> length stream = 0%nat \/ length stream = 8%nat)
    /\ (e = ErrUnexpectedEOF
        <-> length stream <> 0%nat /\ length stream <> 8%nat).
Proof.
  intros Hlen. unfold ReadFrom, binary_Read_uint64, io_ReadFull, Buffer_Reader.
  destruct (decide (8 <= length stream)%nat) as [H8|H8].
  - destruct (decide (8 <= length (drop 8 stream))%nat) as [H16|H16].
    { rewrite length_drop in H16. lia. }
    destruct (drop 8 stream) as [|b rest] eqn:Hd;
      apply (f_equal length) in Hd; rewrite length_drop in Hd; cbn in Hd.
    + exists EOF, []. split; [done |].
      split; split; intros H; try done; try lia; try (right; lia).
    + exists ErrUnexpectedEOF, []. split; [done |].
      split; split; intros H; try done; try lia; try (destruct H; lia).
  - destruct stream as [|b rest]; cbn in *.
    + exists EOF, []. split; [done |].
      split; split; intros H; try done; try lia; try (left; lia).
    + exists ErrUnexpectedEOF, []. split; [done |].
      split; split; intros H; try done; try lia; try (destruct H; lia).
Qed.

Lemma ReadFrom_short_header_witness :
  exists e stream',
    ReadFrom (binary.PutUint64 4 : Buffer) sketch_abc
    = Done (0, Some e, stream', sketch_abc)
    /\ (e = EOF <-> length (binary.PutUint64 4) = 0%nat
                    \/ length (binary.PutUint64 4) = 8%nat)
    /\ (e = ErrUnexpectedEOF
        <-> length (binary.PutUint64 4) <> 0%nat
            /\ length (binary.PutUint64 4) <> 8%nat).
Proof.
  apply (ReadFrom_short_header (binary.PutUint64 4) sketch_abc).
  vm_compute. lia.
Defined.

Lemma for_from_try_stop {S E : Type} (P : nat -> S -> Prop)
    (Q : E -> S -> Prop) (body : nat -> S -> run (S * option E))
    (k : nat) (n : nat) :
  forall (i : nat) (st : S),
  (i <= k < i + n)%nat -> P i st ->
  (forall j st0, (i <= j < k)%nat -> P j st0 ->
     exists st1, body j st0 = Done (st1, None) /\ P (Datatypes.S j) st1) ->
  (forall st0, P k st0 ->
     exists st1 e, body k st0 = Done (st1, Some e) /\ Q e st1) ->
  exists st' e, for_from_try i n body st = Done (st', Some e) /\ Q e st'.
Proof.
  induction n as [|n IH]; intros i st Hk HP Hgo Hstop; [lia |].
  simpl. destruct (decide (i = k)) as [->|Hne].
  - destruct (Hstop st HP) as (st1 & e & Hb & HQ). rewrite Hb. cbn. eauto.
  - destruct (Hgo i st) as (st1 & Hb & HP1); [lia | done |].
    rewrite Hb. cbn. apply IH; [lia | done | | done].
    intros j st0 Hj. apply Hgo. lia.
Qed.

Lemma Read_uint64s_short (stream : Buffer) (C : list Z) :
  (length stream < 8 * length C)%nat ->
  exists e stream',
    binary_Read_uint64s stream C = (stream', C, Some e)
    /\ (e = EOF <-> stream = []).
Proof.
  intros Hlen. unfold binary_Read_uint64s, io_ReadFull, Buffer_Reader.
  rewrite decide_False by lia.
  destruct stream as [|b rest].
  - by exists EOF, [].
  - exists ErrUnexpectedEOF, []. by split.
Qed.

(** X10: a stream with a whole header of allocatable dimensions, some
    whole rows and then less than a row: [ReadFrom] returns 0 and an
    error ([io.EOF] exactly when the stream ends on a row boundary),
    but the receiver has changed: it has the depth and width of the
    header, the rows that were read, zero rows after them, and its old
    hasher. *)
Theorem ReadFrom_truncated (dv wv : Z) (rows : list (list Z))
    (tail : Buffer) (s : CountMinSketch) :
  allocatable dv wv ->
  (length rows < Z.to_nat dv)%nat ->
  Forall (fun row => length row = Z.to_nat wv) rows ->
  Forall (Forall is_uint64) rows ->
  (length tail < 8 * Z.to_nat wv)%nat ->
  exists e stream',
    ReadFrom (binary.PutUint64 dv ++ binary.PutUint64 wv
              ++ flat_map binary.PutUint64s rows ++ tail : Buffer) s
    = Done (0, Some e, stream',
            {| d := dv; w := wv;
               count := rows ++ replicate (Z.to_nat dv - length rows)
                                          (make_uint64s wv);
               hasher := hasher s |})
    /\ (e = EOF <-> tail = []).
Proof.
  intros (Hda & Hwa & _) Hk Hlens Htys Htail. unfold max_cells in Hda, Hwa.
  assert (is_uint64 dv) as Hd by (unfold is_uint64; lia).
  assert (is_uint64 wv) as Hw by (unfold is_uint64; lia).
  unfold ReadFrom.
  rewrite (Read_uint64_PutUint64 dv) by done.
  rewrite (Read_uint64_PutUint64 wv) by done.
  cbn [d w set_count set_w set_d count].
  rewrite !wrap64_small by done.
  rewrite alloc_rows by (cbn; apply length_replicate).
  cbn.
  set (full := rows ++ replicate (Z.to_nat dv - length rows)
                                 (make_uint64s wv)).
  match goal with
  | |- context [@for_from_try ?S ?E 0%nat ?n ?f ?x] =>
      destruct (@for_from_try_stop S E
        (fun r '(st, C, stream) =>
           d st = dv /\ w st = wv /\ hasher st = hasher s
           /\ length C = Z.to_nat wv
           /\ length (count st) = Z.to_nat dv
           /\ (forall j, (j < Z.to_nat dv)%nat ->
                 count st !! j
                 = if decide (j < r)%nat then rows !! j
                   else Some (make_uint64s wv))
           /\ stream = flat_map binary.PutUint64s (drop r rows) ++ tail)
        (fun e '(st, C, stream) =>
           (e = EOF <-> tail = [])
           /\ st = {| d := dv; w := wv; count := full; hasher := hasher s |})
        f (length rows) n 0%nat x)
        as ([[st C] stream] & e & Hrun & He & Hst)
  end.
  - lia.
  - cbn. repeat split; try done.
    + apply length_replicate.
    + apply length_replicate.
    + intros j Hj. rewrite decide_False by lia.
      by apply lookup_replicate_2.
  - intros r [[st C] stream] Hr (Hdst & Hwst & Hhst & HC & Hlen & Hrows & ->).
    destruct (lookup_lt_is_Some_2 rows r) as [row Hrow]; [lia |].
    pose proof (proj1 (Forall_lookup _ _) Hlens r row Hrow) as Hlrow.
    pose proof (proj1 (Forall_lookup _ _) Htys r row Hrow) as Htrow.
    cbn beta in Hlrow.
    assert (shape_ok st) as Hshape.
    { split; [by rewrite Hdst |]. apply Forall_lookup. intros j rowj Hj.
      pose proof (lookup_lt_Some _ _ _ Hj) as Hlt.
      rewrite Hrows in Hj by lia. rewrite Hwst.
      destruct (decide (j < r)%nat).
      - by apply (proj1 (Forall_lookup _ _) Hlens j).
      - injection Hj as <-. apply length_replicate. }
    rewrite (drop_S _ row) by done. cbn [flat_map].
    rewrite <- app_assoc.
    rewrite (Read_uint64s_PutUint64s row); [| done | lia].
    rewrite fill_row; [| done | lia | lia].
    cbn. eexists (_, _, _). split; [done |]. cbn.
    repeat split; try done.
    + by rewrite length_insert.
    + intros j Hj. destruct (decide (j = r)) as [->|Hne].
      * rewrite list_lookup_insert_eq by lia.
        by rewrite decide_True by lia.
      * rewrite list_lookup_insert_ne by done. rewrite Hrows by done.
        destruct (decide (j < r)%nat), (decide (j < Datatypes.S r)%nat);
          (done || lia).
  - intros [[st C] stream] (Hdst & Hwst & Hhst & HC & Hlen & Hrows & ->).
    rewrite drop_all. cbn [flat_map app].
    destruct (Read_uint64s_short tail C) as (e & stream' & Hread & He);
      [lia |].
    rewrite Hread. eexists (_, _, _), e. split; [done |]. cbn.
    split; [done |].
    destruct st as [d1 w1 c1 hs1]. cbn in *. subst. f_equal.
    apply list_eq. intros j. unfold full.
    destruct (decide (j < Z.to_nat dv)%nat) as [Hj|Hj].
    + rewrite Hrows by done. destruct (decide (j < length rows)%nat).
      * by rewrite lookup_app_l.
      * rewrite lookup_app_r by lia. symmetry.
        apply lookup_replicate_2. lia.
    + rewrite !lookup_ge_None_2; [done | | lia].
      rewrite length_app, length_replicate. lia.
  - rewrite Hrun. cbn. exists e, stream. by subst st.
Qed.

Lemma ReadFrom_truncated_witness :
  exists e stream',
    ReadFrom (binary.PutUint64 2 ++ binary.PutUint64 1
              ++ flat_map binary.PutUint64s [[5]] ++ [Byte.x00] : Buffer)
             sketch_counted
    = Done (0, Some e, stream',
            {| d := 2; w := 1;
               count := [[5]] ++ replicate (Z.to_nat 2 - length [[5]])
                                           (make_uint64s 1);
               hasher := hasher sketch_counted |})
    /\ (e = EOF <-> [Byte.x00] = []).
Proof.
  apply (ReadFrom_truncated 2 1 [[5]] [Byte.x00] sketch_counted).
  - vm_compute. intuition discriminate.
  - vm_compute. lia.
  - repeat constructor.
  - repeat constructor; by vm_compute.
  - vm_compute. lia.
Defined.

(** ** Sketches [New] would not make *)

Lemma locations_zero_width key s :
  w s = 0 -> 1 <= d s -> locations key s = Panicked DivideByZero.
Proof.
  intros Hw Hd. unfold locations. rewrite baseHashes_eq.
  cbn [d w set_hasher]. unfold for_upto.
  destruct (Z.to_nat (d s)) as [|n] eqn:Hn; [lia |].
  cbn [for_from]. unfold umod. by rewrite Hw.
Qed.

(** X11: on a sketch of width 0 and a depth of at least 1, within
    what can be allocated, the location of row 0 is a remainder by
    zero: [Update] and [Estimate] panic, for every key. *)
Theorem zero_width_panics (key : list byte) (amount : Z)
    (s : CountMinSketch) :
  w s = 0 -> 1 <= d s <= max_cells ->
  Update key amount s = Panicked DivideByZero
  /\ Estimate key s = Panicked DivideByZero.
Proof.
  intros Hw [Hd _]. unfold Update, Estimate.
  by rewrite locations_zero_width.
Qed.

Lemma zero_width_panics_witness :
  Update key_abc 1 (fresh_sketch 4 0) = Panicked DivideByZero
  /\ Estimate key_abc (fresh_sketch 4 0) = Panicked DivideByZero.
Proof.
  apply (zero_width_panics key_abc 1 (fresh_sketch 4 0)).
  - reflexivity.
  - vm_compute. split; discriminate.
Defined.

Lemma concat_replicate_nil (n : nat) : concat (replicate n ([] : list Z)) = [].
Proof. induction n as [|n IH]; [done |]. cbn. exact IH. Qed.

Lemma concat_fresh d0 w0 :
  d0 = 0 \/ w0 = 0 -> concat (count (fresh_sketch d0 w0)) = [].
Proof.
  intros [->| ->]; cbn; [done |]. apply concat_replicate_nil.
Qed.

(** X12: [ReadFrom] does not check the header the way [New] checks its
    arguments: a header of allocatable dimensions with depth 0 or
    width 0 is read without error, 16 bytes are reported, and the
    receiver becomes a sketch without counters, which [New] refuses to
    make. *)
Theorem ReadFrom_zero_header (dv wv : Z) (rest : Buffer)
    (s0 : CountMinSketch) (h : heap) :
  allocatable dv wv -> dv = 0 \/ wv = 0 ->
  ReadFrom (binary.PutUint64 dv ++ binary.PutUint64 wv ++ rest : Buffer) s0
  = Done (16, None, rest, fresh_sketch dv wv)
  /\ cells (fresh_sketch dv wv) = 0
  /\ New dv wv h = Done (None, Some errNew, h).
Proof.
  intros (Hda & Hwa & _) Hz. unfold max_cells in Hda, Hwa.
  assert (is_uint64 dv) as Hd by (unfold is_uint64; lia).
  assert (is_uint64 wv) as Hw by (unfold is_uint64; lia).
  destruct (ReadFrom_encoding (fresh_sketch dv wv) s0 rest)
    as (C & HC & Hrun).
  { apply shape_ok_fresh. }
  { by apply well_typed_fresh. }
  unfold encoding in Hrun. rewrite concat_fresh in Hrun by done.
  cbn [flat_map d w fresh_sketch count] in Hrun. cbn [d w fresh_sketch] in HC.
  split; [|split].
  - rewrite app_nil_r, <- app_assoc in Hrun. rewrite Hrun.
    change {| d := dv; w := wv;
              count := replicate (Z.to_nat dv) (make_uint64s wv);
              hasher := fnv.New64 |} with (fresh_sketch dv wv). do 4 f_equal.
    unfold codec_size, binary.Size_uint64s, binary.Size_uint64.
    cbn [d]. rewrite HC.
    destruct Hz as [-> | ->]; cbn; [done |].
    rewrite Z.mul_0_r. done.
  - unfold cells. by rewrite concat_fresh.
  - apply New_zero. lia.
Qed.

Lemma ReadFrom_zero_header_witness :
  ReadFrom (binary.PutUint64 4 ++ binary.PutUint64 0 ++ [] : Buffer)
           sketch_abc
  = Done (16, None, [], fresh_sketch 4 0)
  /\ cells (fresh_sketch 4 0) = 0
  /\ New 4 0 ∅ = Done (None, Some errNew, ∅).
Proof.
  apply (ReadFrom_zero_header 4 0 [] sketch_abc ∅).
  - vm_compute. intuition discriminate.
  - right. reflexivity.
Defined.

(** X13: [UnmarshalJSON] takes a payload whose [count] has no rows
    although [d] and [w] are positive; on the sketch it leaves (with a
    depth within what can be allocated), [Update] and [Estimate] index
    a row that is not there and panic, for every key. *)
Theorem UnmarshalJSON_no_rows_panics (j : CountMinSketchJSON)
    (s : CountMinSketch) (key : list byte) (amount : Z) :
  1 <= json_D j <= max_cells -> 1 <= json_W j -> json_Count j = [] ->
  exists s',
    UnmarshalJSON (inr j) s = (None, s')
    /\ Update key amount s' = Panicked IndexOutOfRange
    /\ Estimate key s' = Panicked IndexOutOfRange.
Proof.
  intros [Hd _] Hw Hc. eexists. split; [reflexivity |].
  unfold Update, Estimate.
  rewrite locations_eq by (cbn; lia). cbn [d w count set_hasher].
  rewrite Hc.
  destruct (Z.to_nat (json_D j)) as [|n] eqn:Hn; [lia |].
  cbn. done.
Qed.

Lemma UnmarshalJSON_no_rows_panics_witness :
  exists s',
    UnmarshalJSON (inr payload_no_rows) sketch_abc = (None, s')
    /\ Update key_abc 1 s' = Panicked IndexOutOfRange
    /\ Estimate key_abc s' = Panicked IndexOutOfRange.
Proof.
  apply (UnmarshalJSON_no_rows_panics payload_no_rows sketch_abc key_abc 1).
  - vm_compute. split; discriminate.
  - vm_compute. discriminate.
  - reflexivity.
Defined.

(** ** Hashing *)

Lemma lxor_uint64 a b : is_uint64 a -> 0 <= b < 2 ^ 8 -> is_uint64 (Z.lxor a b).
Proof.
  unfold is_uint64. intros Ha Hb.
  split; [apply Z.lxor_nonneg; lia |].
  destruct (Z.eq_dec (Z.lxor a b) 0) as [->|Hnz]; [lia |].
  assert (0 <= Z.lxor a b) as Hpos by (apply Z.lxor_nonneg; lia).
  apply Z.log2_lt_pow2; [lia |].
  pose proof (Z.log2_lxor a b ltac:(lia) ltac:(lia)) as Hl.
  assert (Z.log2 a < 64) as Hla.
  { destruct (Z.eq_dec a 0) as [->|]; [by cbn |].
    apply Z.log2_lt_pow2; lia. }
  assert (Z.log2 b < 64) as Hlb.
  { destruct (Z.eq_dec b 0) as [->|]; [by cbn |].
    apply Z.log2_lt_pow2; lia. }
  lia.
Qed.

Lemma Write_uint64 (h : Z) (data : list byte) :
  is_uint64 h -> is_uint64 (fnv.Write h data).
Proof.
  unfold fnv.Write. revert h.
  induction data as [|c data IH]; intros h Hh; [done |].
  cbn [fold_left]. apply IH. apply lxor_uint64.
  - apply wrap64_range.
  - apply byte.unsigned_range.
Qed.

Lemma hash_key_uint64 key : is_uint64 (hash_key key).
Proof. apply Write_uint64. by vm_compute. Qed.

Lemma h1_low key : h1 key = hash_key key mod 2 ^ 32.
Proof.
  unfold h1, fnv.Sum, binary.Uint32. generalize (hash_key key). intros H.
  cbn [le_split app rev take drop firstn skipn].
  change (le_combine (le_split 4 H) = H mod 2 ^ 32).
  by rewrite le_combine_split.
Qed.

Lemma h2_high key : h2 key = hash_key key / 2 ^ 32.
Proof.
  pose proof (hash_key_uint64 key) as Hr.
  unfold h2, fnv.Sum, binary.Uint32. revert Hr.
  generalize (hash_key key). intros H Hr.
  cbn [le_split app rev take drop firstn skipn].
  change (le_combine
            (le_split 4 (Z.shiftr (Z.shiftr (Z.shiftr (Z.shiftr H 8) 8) 8) 8))
          = H / 2 ^ 32).
  rewrite le_combine_split. rewrite !Z.shiftr_shiftr by lia.
  rewrite Z.shiftr_div_pow2 by lia. cbn [Z.add Z.of_nat Z.mul Pos.add
    Pos.succ Pos.of_succ_nat Pos.mul].
  apply Z.mod_small. unfold is_uint64 in Hr.
  split; [apply Z.div_pos; lia |].
  apply Z.div_lt_upper_bound; lia.
Qed.

(** X14: the two base hashes are the low and the high 32 bits of the
    64-bit FNV-1 digest of the key, computed from the offset basis
    whatever the hasher held before; the digest stays in the hasher. *)
Theorem baseHashes_halves (key : list byte) (s : CountMinSketch) :
  exists a b s',
    baseHashes key s = (a, b, s')
    /\ hasher s' = fnv.Write fnv.offset64 key
    /\ is_uint64 (hasher s')
    /\ a = hasher s' mod 2 ^ 32
    /\ b = hasher s' / 2 ^ 32
    /\ hasher s' = b * 2 ^ 32 + a
    /\ d s' = d s /\ w s' = w s /\ count s' = count s.
Proof.
  exists (h1 key), (h2 key), (set_hasher s (hash_key key)).
  split; [apply baseHashes_eq |]. cbn [hasher set_hasher d w count].
  split; [done |]. split; [apply hash_key_uint64 |].
  split; [apply h1_low |]. split; [apply h2_high |].
  split; [|done]. rewrite h1_low, h2_high.
  pose proof (Z.div_mod (hash_key key) (2 ^ 32)). lia.
Qed.

(** X15: for a depth below [2^32], which leaves the sums inside 64 bits,
    the location of row [r] is [(a + b*r) mod w], the double hashing
    formula of the README, with [a] the low and [b] the high half of the
    digest. *)
Theorem locations_double_hashing (key : list byte) (s : CountMinSketch)
    (r : nat) (c : Z) (locs : list Z) (s' : CountMinSketch) :
  1 <= w s -> d s < 2 ^ 32 ->
  locations key s = Done (locs, s') -> locs !! r = Some c ->
  c = (hasher s' mod 2 ^ 32 + hasher s' / 2 ^ 32 * Z.of_nat r) mod w s.
Proof.
  intros Hw Hd Hrun Hc. rewrite locations_eq in Hrun by lia.
  injection Hrun as <- <-. apply locations_lookup in Hc as [Hr ->].
  cbn [hasher set_hasher]. rewrite <- h1_low, <- h2_high.
  unfold location.
  pose proof (hash_key_uint64 key) as Hh. unfold is_uint64 in Hh.
  assert (0 <= h1 key < 2 ^ 32) as H1.
  { rewrite h1_low. apply Z.mod_pos_bound. lia. }
  assert (0 <= h2 key < 2 ^ 32) as H2.
  { rewrite h2_high. split; [apply Z.div_pos; lia |].
    apply Z.div_lt_upper_bound; lia. }
  assert (0 <= Z.of_nat r <= 2 ^ 32 - 2) as Hrr by lia.
  assert (0 <= h2 key * Z.of_nat r <= (2 ^ 32 - 1) * (2 ^ 32 - 2)) as Hp
    by nia.
  rewrite (wrap64_small (h2 key * Z.of_nat r)) by (unfold is_uint64; lia).
  rewrite wrap64_small by (unfold is_uint64; lia). done.
Qed.

Lemma locations_double_hashing_witness :
  3 = (hasher sketch_counted mod 2 ^ 32
       + hasher sketch_counted / 2 ^ 32 * Z.of_nat 0) mod w sketch_abc.
Proof.
  apply (locations_double_hashing key_abc sketch_abc 0 3 [3; 15; 7; 19]
           sketch_counted).
  - vm_compute. discriminate.
  - vm_compute. reflexivity.
  - vm_compute. reflexivity.
  - reflexivity.
Defined.

(** ** The flat variant: [New] *)

Lemma wrap_int32_wrap64 x :
  Legacy.wrap_int32 (wrap64 x)
  = if x mod 2 ^ 32 <? 2 ^ 31 then x mod 2 ^ 32 else x mod 2 ^ 32 - 2 ^ 32.
Proof.
  unfold Legacy.wrap_int32, wrap64.
  rewrite <- (Zplus_mod_idemp_l (x mod 2 ^ 64)).
  rewrite Z.mod_mod_divide by (exists (2 ^ 32); lia).
  pose proof (Z.mod_pos_bound x (2 ^ 32) ltac:(lia)) as Hn.
  destruct (Z.ltb_spec (x mod 2 ^ 32) (2 ^ 31)).
  - rewrite Z.mod_small by lia. lia.
  - replace (x mod 2 ^ 32 + 2 ^ 31)
      with (x mod 2 ^ 32 - 2 ^ 31 + 1 * 2 ^ 32) by lia.
    rewrite Z_mod_plus_full. rewrite Z.mod_small by lia. lia.
Qed.

(** X16: the flat [New] looks at the low 32 bits of [d*w] only: when
    they are at most [2^29] it returns a sketch of that many zero
    counters, with [d] and [w] as given, even where [d*w] itself is
    [2^32] or more (or 0). *)
Theorem Legacy_New_low_bits (d0 w0 : Z) :
  (d0 * w0) mod 2 ^ 32 <= 536870912 ->
  Legacy.New d0 w0
  = (Some {| Legacy.d := d0; Legacy.w := w0;
             Legacy.count := replicate (Z.to_nat ((d0 * w0) mod 2 ^ 32)) 0;
             Legacy.hasher := fnv.New64 |},
     None).
Proof.
  intros Hn. unfold Legacy.New. cbv zeta.
  rewrite wrap_int32_wrap64.
  pose proof (Z.mod_pos_bound (d0 * w0) (2 ^ 32) ltac:(lia)) as Hb.
  destruct (Z.ltb_spec ((d0 * w0) mod 2 ^ 32) (2 ^ 31)) as [_|?]; [|lia].
  change (Legacy.wrap_int32 (Z.shiftr (Legacy.wrap_uint32 (Z.lnot 0)) 1))
    with 2147483647.
  destruct (Z.ltb_spec ((d0 * w0) mod 2 ^ 32) 0); [lia |].
  destruct (Z.ltb_spec 2147483647 ((d0 * w0) mod 2 ^ 32)); [lia |].
  destruct (Z.ltb_spec 536870912 ((d0 * w0) mod 2 ^ 32)); [lia |].
  reflexivity.
Qed.

Lemma Legacy_New_low_bits_witness :
  Legacy.New 65536 65536
  = (Some {| Legacy.d := 65536; Legacy.w := 65536;
             Legacy.count
               := replicate (Z.to_nat ((65536 * 65536) mod 2 ^ 32)) 0;
             Legacy.hasher := fnv.New64 |},
     None).
Proof.
  apply (Legacy_New_low_bits 65536 65536). vm_compute. discriminate.
Defined.

(** X17: when the low 32 bits of [d*w] are above [2^29] the flat [New]
    returns no sketch and an error that carries [d*w]: the
    out-of-memory one below [2^31], the out-of-range one from [2^31]
    on. *)
Theorem Legacy_New_too_large (d0 w0 : Z) :
  536870912 < (d0 * w0) mod 2 ^ 32 ->
  Legacy.New d0 w0
  = (None,
     Some (Errorf
             (if (d0 * w0) mod 2 ^ 32 <? 2 ^ 31
              then "d*w (%d) too large, it would be out of memory"
              else "d*w (%d) too large, out of range")
             (wrap64 (d0 * w0)))).
Proof.
  intros Hn. unfold Legacy.New. cbv zeta.
  rewrite wrap_int32_wrap64.
  pose proof (Z.mod_pos_bound (d0 * w0) (2 ^ 32) ltac:(lia)) as Hb.
  change (Legacy.wrap_int32 (Z.shiftr (Legacy.wrap_uint32 (Z.lnot 0)) 1))
    with 2147483647.
  destruct (Z.ltb_spec ((d0 * w0) mod 2 ^ 32) (2 ^ 31)) as [Hlt|Hge].
  - destruct (Z.ltb_spec ((d0 * w0) mod 2 ^ 32) 0); [lia |].
    destruct (Z.ltb_spec 2147483647 ((d0 * w0) mod 2 ^ 32)); [lia |].
    destruct (Z.ltb_spec 536870912 ((d0 * w0) mod 2 ^ 32)); [|lia].
    reflexivity.
  - destruct (Z.ltb_spec ((d0 * w0) mod 2 ^ 32 - 2 ^ 32) 0); [|lia].
    reflexivity.
Qed.

Lemma Legacy_New_too_large_witness :
  Legacy.New 1 536870913
  = (None,
     Some (Errorf
             (if (1 * 536870913) mod 2 ^ 32 <? 2 ^ 31
              then "d*w (%d) too large, it would be out of memory"
              else "d*w (%d) too large, out of range")
             (wrap64 (1 * 536870913)))).
Proof.
  apply (Legacy_New_too_large 1 536870913). vm_compute. reflexivity.
Defined.

(** ** The flat variant against the matrix variant *)

Lemma for_range_from_ext {A S : Type} (f g : nat -> A -> S -> run S)
    (l : list A) :
  forall (r : nat) (st : S),
  (forall j c st0, l !! j = Some c -> f (r + j)%nat c st0 = g (r + j)%nat c st0) ->
  for_range_from r l f st = for_range_from r l g st.
Proof.
  induction l as [|c l IH]; intros r st Hfg; [done |].
  cbn [for_range_from].
  pose proof (Hfg 0%nat c st eq_refl) as H0. rewrite Nat.add_0_r in H0.
  rewrite H0. destruct (g r c st) as [st1|p]; [|done]. cbn.
  apply IH. intros j c' st0 Hj.
  replace (Datatypes.S r + j)%nat with (r + Datatypes.S j)%nat by lia.
  by apply Hfg.
Qed.

Lemma concat_insert (m : nat) (cnt : list (list Z)) :
  Forall (fun row => length row = m) cnt ->
  forall r c row x,
    cnt !! r = Some row -> (c < m)%nat ->
    <[(r * m + c)%nat := x]> (concat cnt)
    = concat (<[r := <[c := x]> row]> cnt).
Proof.
  induction 1 as [|row0 cnt Hrow0 Hrows IH]; intros r c row x Hr Hc; [done |].
  destruct r as [|r]; cbn [concat].
  - injection Hr as <-. cbn. by rewrite insert_app_l by lia.
  - cbn in Hr.
    change (<[Datatypes.S r := <[c := x]> row]> (row0 :: cnt))
      with (row0 :: <[r := <[c := x]> row]> cnt).
    cbn [concat]. rewrite <- (IH r c row x Hr Hc).
    rewrite insert_app_r_alt by (rewrite Hrow0; lia).
    rewrite Hrow0. do 2 f_equal. lia.
Qed.

Lemma flat_locations_eq key (f : Legacy.CountMinSketch) :
  Legacy.w f <> 0 \/ Legacy.d f <= 0 ->
  LegacyOps.locations key f
  = Done (location key (Legacy.w f) <$> seq 0 (Z.to_nat (Legacy.d f)),
          LegacyOps.set_hasher f (hash_key key)).
Proof.
  intros Hw. unfold LegacyOps.locations, LegacyOps.base_hashes.
  cbn [Legacy.d Legacy.w LegacyOps.set_hasher].
  unfold for_upto.
  rewrite (for_from_fill (location key (Legacy.w f))); [done | |].
  - unfold make_uint64s. by rewrite length_replicate.
  - intros r l0 Hr Hl0. unfold umod.
    destruct (Z.eqb_spec (Legacy.w f) 0) as [Hz|Hnz]; [lia |].
    cbn. unfold store.
    destruct (lookup_lt_is_Some_2 l0 r) as [x Hx]; [lia |].
    by rewrite Hx.
Qed.

Lemma flat_index_eq (f : Legacy.CountMinSketch) (r : nat) (c : Z) :
  0 <= Legacy.d f -> 1 <= Legacy.w f ->
  Legacy.d f * Legacy.w f < 2 ^ 64 ->
  (r < Z.to_nat (Legacy.d f))%nat -> 0 <= c < Legacy.w f ->
  LegacyOps.flat_index f r c
  = (r * Z.to_nat (Legacy.w f) + Z.to_nat c)%nat.
Proof.
  intros Hd Hw Hfit Hr Hc. unfold LegacyOps.flat_index.
  assert (Z.of_nat r * Legacy.w f + c < Legacy.d f * Legacy.w f) by nia.
  assert (0 <= Z.of_nat r * Legacy.w f) by nia.
  rewrite (wrap64_small (Z.of_nat r * Legacy.w f))
    by (unfold is_uint64; lia).
  rewrite wrap64_small by (unfold is_uint64; lia).
  rewrite Z2Nat.inj_add, Z2Nat.inj_mul, Nat2Z.id by lia. done.
Qed.

(** The flat counter [count[r*w + c]] is the matrix counter
    [count[r][c]]. *)
Lemma flat_cell (s : CountMinSketch) (r : nat) (c : Z) :
  shape_ok s -> 0 <= d s -> 1 <= w s -> d s * w s < 2 ^ 64 ->
  (r < Z.to_nat (d s))%nat -> 0 <= c < w s ->
  index (Legacy.count (flatten s)) (LegacyOps.flat_index (flatten s) r c)
  = cell (count s) r c.
Proof.
  intros Hs Hd Hw Hfit Hr Hc.
  rewrite flat_index_eq by done. cbn [flatten Legacy.count Legacy.w].
  destruct (shape_row s r Hs Hr) as (row & Hrow & Hlen).
  destruct (lookup_lt_is_Some_2 row (Z.to_nat c)) as [v Hv]; [lia |].
  rewrite (cell_Done _ _ _ _ _ Hrow Hv). unfold index.
  destruct Hs as [_ Hrows].
  by rewrite (concat_lookup_matrix _ _ Hrows r (Z.to_nat c) row v).
Qed.

(** X18: [Estimate] of the flat variant, on the counters of a matrix
    sketch laid out row after row, returns what [Estimate] of the
    matrix variant returns. *)
Theorem Legacy_Estimate_agrees (key : list byte) (s : CountMinSketch) :
  shape_ok s -> 0 <= d s -> 1 <= w s -> d s * w s < 2 ^ 64 ->
  exists m s',
    Estimate key s = Done (m, s')
    /\ LegacyOps.Estimate key (flatten s) = Done (m, flatten s').
Proof.
  intros Hs Hd Hw Hfit.
  destruct (Estimate_total key s Hs Hw) as (m & Hest).
  exists m, (set_hasher s (hash_key key)). split; [done |].
  unfold Estimate in Hest. rewrite locations_eq in Hest by lia.
  cbn in Hest.
  unfold LegacyOps.Estimate.
  rewrite flat_locations_eq by (cbn; lia).
  cbn [flatten Legacy.d Legacy.w mbind run_bind].
  unfold for_range in *.
  erewrite for_range_from_ext.
  - destruct (for_range_from _ _ _ _) as [m0|p] eqn:Hloop in Hest;
      [|done].
    injection Hest as ->. rewrite Hloop. reflexivity.
  - intros j c min Hj. cbn beta.
    apply locations_lookup in Hj as [Hr ->].
    pose proof (location_lt key (w s) j Hw) as Hloc.
    change (LegacyOps.set_hasher (flatten s) (hash_key key))
      with (flatten (set_hasher s (hash_key key))).
    rewrite flat_cell by done. reflexivity.
Qed.

Lemma Legacy_Estimate_agrees_witness :
  exists m s',
    Estimate key_abc sketch_abc = Done (m, s')
    /\ LegacyOps.Estimate key_abc (flatten sketch_abc)
       = Done (m, flatten s').
Proof.
  apply (Legacy_Estimate_agrees key_abc sketch_abc).
  - vm_compute. repeat constructor.
  - vm_compute. discriminate.
  - vm_compute. discriminate.
  - vm_compute. reflexivity.
Defined.

(** X19: [Update] of the flat variant, on the counters of a matrix
    sketch laid out row after row, leaves the counters that [Update] of
    the matrix variant leaves, laid out row after row. *)
Theorem Legacy_Update_agrees (key : list byte) (amount : Z)
    (s : CountMinSketch) :
  shape_ok s -> 0 <= d s -> 1 <= w s -> d s * w s < 2 ^ 64 ->
  exists s',
    Update key amount s = Done (tt, s')
    /\ LegacyOps.Update key amount (flatten s) = Done (tt, flatten s').
Proof.
  intros Hs Hd Hw Hfit.
  exists (set_count (set_hasher s (hash_key key)) (updated key amount s)).
  split; [by apply Update_eq |].
  unfold LegacyOps.Update. rewrite flat_locations_eq by (cbn; lia).
  cbn [flatten Legacy.d Legacy.w mbind run_bind].
  set (locs := location key (w s) <$> seq 0 (Z.to_nat (d s))).
  match goal with
  | |- context [for_range locs ?f ?x] =>
      destruct (for_range_inv
        (fun k st =>
           Legacy.d st = d s /\ Legacy.w st = w s
           /\ Legacy.hasher st = hash_key key
           /\ exists M, Legacy.count st = concat M
                /\ matrix_ok (Z.to_nat (d s)) (Z.to_nat (w s)) M
                /\ forall r, M !! r
                     = if decide (r < k)%nat then updated key amount s !! r
                       else count s !! r)
        f locs x)
        as (st & Hrun & Hdst & Hwst & Hhst & M & HM & Hshape & Hrows)
  end.
  - cbn. do 3 (split; [done |]). exists (count s).
    split; [done |]. split; [exact Hs |]. intros r.
    by rewrite decide_False by lia.
  - intros k c st0 Hk (Hdst & Hwst & Hhst & M & HM & Hshape & Hrows).
    apply locations_lookup in Hk as [Hk ->].
    pose proof (location_lt key (w s) k Hw) as Hloc.
    rewrite flat_index_eq by (rewrite ?Hdst, ?Hwst; done).
    rewrite Hwst, HM.
    destruct (shape_cell key s k Hs Hw Hk) as (row & v & Hrow & Hlen & Hv).
    assert (M !! k = Some row) as HMk.
    { rewrite Hrows. by rewrite decide_False by lia. }
    destruct Hshape as [HlM HrM].
    unfold index, store.
    rewrite (concat_lookup_matrix _ _ HrM k _ row v HMk Hv). cbn.
    eexists. split; [done |]. cbn. do 3 (split; [done |]).
    exists (<[k := <[Z.to_nat (location key (w s) k) := wrap64 (v + amount)]>
                    row]> M).
    split; [apply concat_insert; (done || lia) |].
    split.
    { apply matrix_set_row; [done |]. by rewrite length_insert. }
    intros r. destruct (decide (r = k)) as [->|Hne].
    + rewrite list_lookup_insert_eq by lia.
      rewrite decide_True by lia.
      rewrite (updated_lookup _ _ _ _ _ Hrow). unfold bump. by rewrite Hv.
    + rewrite list_lookup_insert_ne by done. rewrite Hrows.
      destruct (decide (r < k)%nat), (decide (r < Datatypes.S k)%nat);
        (done || lia).
  - rewrite Hrun. cbn. do 2 f_equal.
    destruct st as [d1 w1 c1 hs1]. cbn in *. subst.
    unfold flatten. cbn. do 2 f_equal. apply list_eq. intros r.
    rewrite Hrows. unfold locs. rewrite length_fmap, length_seq.
    destruct (decide (r < Z.to_nat (d s))%nat) as [Hr|Hr]; [done |].
    destruct Hs as [Hlen _].
    rewrite (lookup_ge_None_2 (count s) r) by lia.
    symmetry. apply lookup_ge_None_2. rewrite length_updated. lia.
Qed.

Lemma Legacy_Update_agrees_witness :
  exists s',
    Update key_abc 10 sketch_abc = Done (tt, s')
    /\ LegacyOps.Update key_abc 10 (flatten sketch_abc)
       = Done (tt, flatten s').
Proof.
  apply (Legacy_Update_agrees key_abc 10 sketch_abc).
  - vm_compute. repeat constructor.
  - vm_compute. discriminate.
  - vm_compute. discriminate.
  - vm_compute. reflexivity.
Defined.

Lemma well_typed_concat s : well_typed s -> Forall is_uint64 (concat (count s)).
Proof.
  intros (_ & _ & Hc). induction Hc as [|row cnt Hrow Hcnt IH]; cbn; [done |].
  by apply Forall_app.
Qed.

(** X20: [WriteTo] of the flat variant writes, for the counters of a
    matrix sketch laid out row after row, the bytes that [WriteTo] of
    the matrix variant writes, and returns the same count: the two
    variants share one wire format. *)
Theorem Legacy_WriteTo_agrees (s : CountMinSketch) (buf : Buffer) :
  shape_ok s -> well_typed s -> 1 <= d s -> 1 <= w s ->
  16 + 8 * (d s * w s) < 2 ^ 63 ->
  LegacyOps.WriteTo (flatten s) buf = WriteTo s buf
  /\ WriteTo s buf = Done (16 + 8 * (d s * w s), None, buf ++ encoding s).
Proof.
  intros Hs Ht Hd Hw Hfit.
  destruct (WriteTo_eq s buf Hs Ht) as (C & HC & Hrun).
  rewrite (codec_size_small s C) in Hrun by done.
  split; [|done]. rewrite Hrun.
  pose proof (well_typed_concat s Ht) as Hty.
  destruct Ht as (Htd & Htw & _).
  assert (length (concat (count s)) = Z.to_nat (d s * w s)) as Hlen.
  { rewrite (length_concat_matrix (Z.to_nat (d s)) (Z.to_nat (w s)))
      by done. lia. }
  unfold LegacyOps.WriteTo. cbn [flatten Legacy.d Legacy.w Legacy.count].
  rewrite !Buffer_Write_uint64.
  rewrite (wrap64_small (d s * w s)) by (unfold is_uint64; lia).
  unfold for_upto.
  rewrite (for_from_fill (fun i => default 0 (concat (count s) !! i))).
  - rewrite <- Hlen, lookup_all_eq. cbn [mbind run_bind].
    rewrite Buffer_Write_uint64s.
    rewrite !wrap64_small by done.
    unfold binary.Size_uint64s, binary.Size_uint64. rewrite Hlen.
    rewrite wrap_int64_small by lia.
    rewrite Z2Nat.id by lia. unfold encoding, binary.PutUint64s.
    by rewrite <- !app_assoc.
  - unfold make_uint64s. by rewrite length_replicate.
  - intros i l0 Hi Hl0. unfold index, store.
    destruct (lookup_lt_is_Some_2 (concat (count s)) i) as [v Hv]; [lia |].
    rewrite Hv. cbn.
    destruct (lookup_lt_is_Some_2 l0 i) as [x Hx]; [lia |].
    rewrite Hx. rewrite wrap64_small; [done |].
    by apply (proj1 (Forall_lookup _ _) Hty i v).
Qed.

Lemma Legacy_WriteTo_agrees_witness :
  LegacyOps.WriteTo (flatten sketch_abc) ([] : Buffer)
  = WriteTo sketch_abc ([] : Buffer)
  /\ WriteTo sketch_abc ([] : Buffer)
     = Done (16 + 8 * (d sketch_abc * w sketch_abc), None,
             [] ++ encoding sketch_abc).
Proof.
  apply (Legacy_WriteTo_agrees sketch_abc []).
  - vm_compute. repeat constructor.
  - apply (bool_decide_unpack (well_typed sketch_abc)). vm_compute. exact I.
  - vm_compute. discriminate.
  - vm_compute. discriminate.
  - vm_compute. reflexivity.
Defined.

(** ** [WriteTo] on any writer *)

Lemma for_from_try_inv_err {S E : Type} (P : nat -> S -> Prop)
    (Q : E -> S -> Prop) (body : nat -> S -> run (S * option E)) (n : nat) :
  forall (i : nat) (st : S),
  P i st ->
  (forall k st0, (i <= k < i + n)%nat -> P k st0 ->
     exists st1 e, body k st0 = Done (st1, e)
       /\ match e with None => P (Datatypes.S k) st1 | Some e' => Q e' st1 end) ->
  exists st' e, for_from_try i n body st = Done (st', e)
    /\ match e with None => P (i + n)%nat st' | Some e' => Q e' st' end.
Proof.
  induction n as [|n IH]; intros i st HP Hbody; simpl.
  - exists st, None. by rewrite Nat.add_0_r.
  - destruct (Hbody i st) as (st1 & e & Hb & HP1); [lia | done |].
    rewrite Hb. cbn. destruct e as [e|].
    + exists st1, (Some e). done.
    + destruct (IH (Datatypes.S i) st1 HP1) as (st' & e' & Hrun & HP').
      { intros k st0 Hk. apply Hbody. lia. }
      exists st', e'. split; [done |].
      by replace (i + Datatypes.S n)%nat with (Datatypes.S i + n)%nat by lia.
Qed.

Section any_writer.
Context {Wr : Type} `{!Writer Wr}.

(** X21: whatever the writer does, [WriteTo] on a sketch with [d >= 1]
    rows of [w >= 1] cells does not panic.  It hands the writer the
    depth, the width and the rows, one [Write] each and in this order;
    at the first [Write] that fails it stops, and returns that error
    and 0, the writer being left as that [Write] left it; when none
    fails it returns no error and the size of the encoding. *)
Theorem WriteTo_reports (s : CountMinSketch) (stream : Wr) :
  shape_ok s -> 1 <= d s -> 1 <= w s ->
  WriteTo s stream
  = Done (match (write_all stream (chunks s)).2 with
          | Some _ => 0
          | None => codec_size s (make_uint64s (w s))
          end,
          (write_all stream (chunks s)).2,
          (write_all stream (chunks s)).1).
Proof.
  intros Hs Hd Hw. unfold WriteTo, chunks.
  unfold binary_Write_uint64. cbn [write_all].
  destruct (io_Write stream (binary.PutUint64 (wrap64 (d s))))
    as [stream1 [e|]]; [done |].
  destruct (io_Write stream1 (binary.PutUint64 (wrap64 (w s))))
    as [stream2 [e|]]; [done |].
  set (T := write_all stream2 (map binary.PutUint64s (count s))).
  match goal with
  | |- context [@for_from_try ?S ?E 0%nat ?n ?f ?x] =>
      destruct (@for_from_try_inv_err S E
        (fun r '(C, st) =>
           length C = Z.to_nat (w s)
           /\ write_all st (map binary.PutUint64s (drop r (count s))) = T)
        (fun e '(C, st) => length C = Z.to_nat (w s) /\ T = (st, Some e))
        f n 0%nat x) as ([C stream3] & err & Hrun & Hpost)
  end.
  - split; [apply length_replicate | done].
  - intros r [C stream3] Hr [HC HT].
    destruct (matrix_row _ _ _ r Hs) as (row & Hrow & Hlen); [lia |].
    rewrite (WriteTo_row s r row C) by done. cbn [mbind run_bind].
    rewrite (drop_S _ row) in HT by done. cbn [map write_all] in HT.
    unfold binary_Write_uint64s.
    destruct (io_Write stream3 (binary.PutUint64s row)) as [stream4 err].
    eexists (_, _), err. split; [done |].
    destruct err as [e|]; by split.
  - rewrite Hrun. cbn [mbind run_bind]. destruct err as [e|].
    + destruct Hpost as [_ ->]. reflexivity.
    + destruct Hpost as [HC HT]. cbn [Nat.add] in HT.
      rewrite drop_ge in HT by (destruct Hs as [-> _]; lia).
      cbn [map write_all] in HT. rewrite <- HT. cbn [fst snd].
      do 3 f_equal. unfold codec_size, binary.Size_uint64s.
      unfold make_uint64s. by rewrite HC, length_replicate.
Qed.
End any_writer.

Lemma WriteTo_reports_witness :
  WriteTo sketch_abc ([] : Buffer)
  = Done (match (write_all ([] : Buffer) (chunks sketch_abc)).2 with
          | Some _ => 0
          | None => codec_size sketch_abc (make_uint64s (w sketch_abc))
          end,
          (write_all ([] : Buffer) (chunks sketch_abc)).2,
          (write_all ([] : Buffer) (chunks sketch_abc)).1).
Proof.
  apply (WriteTo_reports sketch_abc ([] : Buffer)).
  - vm_compute. repeat constructor.
  - vm_compute. discriminate.
  - vm_compute. discriminate.
Defined.

(** ** What [Update] touches *)

(** X22: [Update] leaves depth and width as they are and the digest of
    the key in the hasher; in every row the counter at the key's
    location grows by [amount] modulo [2^64] and every other counter
    keeps its value. *)
Theorem Update_cells (key : list byte) (amount : Z) (s : CountMinSketch) :
  shape_ok s -> 1 <= w s ->
  exists s',
    Update key amount s = Done (tt, s')
    /\ d s' = d s /\ w s' = w s /\ hasher s' = fnv.Write fnv.offset64 key
    /\ shape_ok s'
    /\ forall r c v,
         cell (count s) r c = Done v -> 0 <= c ->
         cell (count s') r c
         = Done (if decide (location key (w s) r = c)
                 then wrap64 (v + amount) else v).
Proof.
  intros Hs Hw.
  exists (set_count (set_hasher s (hash_key key)) (updated key amount s)).
  split; [by apply Update_eq |]. do 3 (split; [done |]).
  split; [by apply shape_ok_Update |].
  intros r c v Hv Hc. apply cell_get2. apply cell_get2 in Hv.
  cbn [set_count count]. rewrite get2_updated by done. rewrite Hv. cbn.
  by rewrite Z2Nat.id by lia.
Qed.

Lemma Update_cells_witness :
  exists s',
    Update key_abc 10 sketch_abc = Done (tt, s')
    /\ d s' = d sketch_abc /\ w s' = w sketch_abc
    /\ hasher s' = fnv.Write fnv.offset64 key_abc
    /\ shape_ok s'
    /\ forall r c v,
         cell (count sketch_abc) r c = Done v -> 0 <= c ->
         cell (count s') r c
         = Done (if decide (location key_abc (w sketch_abc) r = c)
                 then wrap64 (v + 10) else v).
Proof.
  apply (Update_cells key_abc 10 sketch_abc).
  - vm_compute. repeat constructor.
  - vm_compute. discriminate.
Defined.

(** X23: a sketch of depth 0 (as [ReadFrom] leaves after a header with
    depth 0) has no location to compute: [Update] changes nothing but
    the hasher and [Estimate] returns 0, for every key and also for
    width 0. *)
Theorem zero_depth_inert (key : list byte) (amount : Z)
    (s : CountMinSketch) :
  d s = 0 ->
  Update key amount s = Done (tt, set_hasher s (hash_key key))
  /\ Estimate key s = Done (0, set_hasher s (hash_key key)).
Proof.
  intros Hd. unfold Update, Estimate.
  rewrite locations_eq by lia. rewrite Hd. done.
Qed.

Lemma zero_depth_inert_witness :
  Update key_abc 7 (fresh_sketch 0 0)
  = Done (tt, set_hasher (fresh_sketch 0 0) (hash_key key_abc))
  /\ Estimate key_abc (fresh_sketch 0 0)
     = Done (0, set_hasher (fresh_sketch 0 0) (hash_key key_abc)).
Proof. apply (zero_depth_inert key_abc 7 (fresh_sketch 0 0)). reflexivity. Defined.

(** ** Decoding, then encoding *)

Lemma PutUint64_Uint64 (bs : list byte) :
  (8 <= length bs)%nat -> binary.PutUint64 (binary.Uint64 bs) = take 8 bs.
Proof.
  intros Hlen. unfold binary.PutUint64, binary.Uint64.
  assert (length (rev (take 8 bs)) = 8%nat) as Hl.
  { rewrite length_rev, length_take. lia. }
  rewrite <- Hl at 1. rewrite split_le_combine. apply rev_involutive.
Qed.

Lemma PutUint64s_Uint64s (n : nat) (bs : list byte) :
  length bs = (8 * n)%nat -> binary.PutUint64s (binary.Uint64s n bs) = bs.
Proof.
  revert bs. induction n as [|n IH]; intros bs Hlen.
  - by destruct bs.
  - cbn [binary.Uint64s binary.PutUint64s flat_map].
    fold (binary.PutUint64s (binary.Uint64s n (drop 8 bs))).
    rewrite IH by (rewrite length_drop; lia).
    rewrite PutUint64_Uint64 by lia. apply take_drop.
Qed.

Lemma Read_uint64_inv (stream stream' : Buffer) (v0 v : Z) :
  binary_Read_uint64 stream v0 = (stream', v, None) ->
  stream = binary.PutUint64 v ++ stream' /\ is_uint64 v.
Proof.
  unfold binary_Read_uint64, io_ReadFull, Buffer_Reader.
  destruct (decide (8 <= length stream)%nat) as [Hlen|Hlen].
  - intros [= <- <-]. split; [|apply Uint64_range].
    rewrite PutUint64_Uint64 by (rewrite length_take; lia).
    rewrite take_take, Nat.min_id. by rewrite take_drop.
  - by destruct stream.
Qed.

Lemma Read_uint64s_inv (stream stream' : Buffer) (C C' : list Z) :
  binary_Read_uint64s stream C = (stream', C', None) ->
  stream = binary.PutUint64s C' ++ stream'
  /\ length C' = length C /\ Forall is_uint64 C'.
Proof.
  unfold binary_Read_uint64s, io_ReadFull, Buffer_Reader.
  destruct (decide (8 * length C <= length stream)%nat) as [Hlen|Hlen].
  - intros [= <- <-]. split; [|split].
    + rewrite PutUint64s_Uint64s by (rewrite length_take; lia).
      by rewrite take_drop.
    + apply length_Uint64s.
    + apply Uint64s_range.
  - by destruct stream.
Qed.

(** X24: whenever [ReadFrom] returns no error, whatever the stream and
    the receiver were, the bytes it consumed are exactly the encoding
    of the sketch it leaves (so writing that sketch gives them back),
    the rest of the stream is untouched, and the sketch has [d] rows of
    [w] cells, all within 64 bits, and a new hasher. *)
Theorem ReadFrom_consumes_encoding (stream stream' : Buffer)
    (s s' : CountMinSketch) (n : Z) :
  ReadFrom stream s = Done (n, None, stream', s') ->
  stream = encoding s' ++ stream'
  /\ shape_ok s' /\ well_typed s' /\ hasher s' = fnv.New64.
Proof.
  unfold ReadFrom.
  destruct (binary_Read_uint64 stream 0) as [[stream1 dv] [e|]] eqn:Hrd;
    [done |].
  destruct (binary_Read_uint64 stream1 0) as [[stream2 wv] [e|]] eqn:Hrw;
    [done |].
  apply Read_uint64_inv in Hrd as [-> Hdv].
  apply Read_uint64_inv in Hrw as [-> Hwv].
  cbn [d w set_count set_w set_d count].
  rewrite !wrap64_small by done.
  rewrite alloc_rows by (cbn; apply length_replicate).
  cbn [mbind run_bind d w set_count].
  match goal with
  | |- context [@for_from_try ?S ?E 0%nat ?k ?f ?x] =>
      destruct (@for_from_try_inv S E
        (fun r '(st, C, strm) =>
           d st = dv /\ w st = wv
           /\ length C = Z.to_nat wv
           /\ matrix_ok (Z.to_nat dv) (Z.to_nat wv) (count st)
           /\ Forall (Forall is_uint64) (count st)
           /\ stream2
              = flat_map binary.PutUint64s (take r (count st)) ++ strm)
        (fun _ => True)
        f k 0%nat x)
        as ([[st C] strm] & err & Hrun & Hpost)
  end.
  - cbn. do 2 (split; [done |]).
    split; [apply length_replicate |].
    split; [apply matrix_replicate, length_replicate |].
    split; [|done].
    apply Forall_replicate, Forall_replicate. by vm_compute.
  - intros r [[st C] strm] Hr (Hdst & Hwst & HC & Hm & Hty & Hstream).
    destruct (binary_Read_uint64s strm C) as [[strm' C'] [e|]] eqn:Hread.
    { eexists (_, _, _), (Some e). by split. }
    apply Read_uint64s_inv in Hread as (-> & HC' & HtyC').
    cbn [d set_w set_d] in Hr.
    assert (shape_ok st) as Hst
      by (unfold shape_ok; rewrite Hdst, Hwst; exact Hm).
    rewrite fill_row; [| done | lia | lia].
    cbn. eexists (_, _, _), None. split; [done |]. cbn.
    do 2 (split; [done |]). split; [lia |].
    split; [apply matrix_set_row; [done | lia] |].
    split.
    { destruct Hm as [Hlm _]. apply Forall_insert; [done | done]. }
    rewrite Hstream.
    destruct Hm as [Hlm _].
    rewrite (take_S_r _ _ C')
      by (apply list_lookup_insert_eq; lia).
    rewrite take_insert_ge by lia.
    rewrite flat_map_app. cbn [flat_map].
    by rewrite app_nil_r, <- app_assoc.
  - rewrite Hrun. cbn. destruct err as [e|]; [done |].
    intros [= <- <- <-].
    destruct Hpost as (Hdst & Hwst & HC & Hm & Hty & Hstream).
    destruct st as [d1 w1 c1 hs1]. cbn in *. subst.
    split; [|done].
    unfold encoding. cbn. rewrite flat_map_concat.
    destruct Hm as [Hlm _]. rewrite take_ge by lia.
    by rewrite <- !app_assoc.
Qed.

Lemma ReadFrom_consumes_encoding_witness :
  binary.PutUint64 1 ++ binary.PutUint64 1 ++ binary.PutUint64 9
    ++ [Byte.x2a]
  = encoding (one_cell 9) ++ [Byte.x2a]
  /\ shape_ok (one_cell 9) /\ well_typed (one_cell 9)
  /\ hasher (one_cell 9) = fnv.New64.
Proof.
  apply (ReadFrom_consumes_encoding
           (binary.PutUint64 1 ++ binary.PutUint64 1 ++ binary.PutUint64 9
              ++ [Byte.x2a])
           [Byte.x2a] sketch_abc (one_cell 9) 24).
  vm_compute. reflexivity.
Defined.

(** X25: the flat [ReadFrom] reads what the matrix [WriteTo] writes:
    from the encoding of a matrix sketch it leaves, in any receiver,
    the same depth and width, the same counters row after row and a new
    hasher, reports the size of the encoding and leaves the rest of the
    stream. *)
Theorem Legacy_ReadFrom_encoding (s : CountMinSketch) (rest : Buffer)
    (f0 : Legacy.CountMinSketch) :
  shape_ok s -> well_typed s -> 16 + 8 * (d s * w s) < 2 ^ 63 ->
  LegacyOps.ReadFrom (encoding s ++ rest : Buffer) f0
  = Done (16 + 8 * (d s * w s), None, rest,
          flatten (set_hasher s fnv.New64)).
Proof.
  intros Hs Ht Hfit.
  pose proof (well_typed_concat s Ht) as Hty.
  destruct Ht as (Htd & Htw & _).
  assert (length (concat (count s)) = Z.to_nat (d s * w s)) as Hlen.
  { rewrite (length_concat_matrix (Z.to_nat (d s)) (Z.to_nat (w s)))
      by done. unfold is_uint64 in *. lia. }
  unfold LegacyOps.ReadFrom, encoding. rewrite <- !app_assoc.
  rewrite (Read_uint64_PutUint64 (d s)) by done.
  rewrite (Read_uint64_PutUint64 (w s)) by done.
  cbn [Legacy.d Legacy.w LegacyOps.set_d LegacyOps.set_w
       LegacyOps.set_count].
  rewrite (wrap64_small (d s)), (wrap64_small (w s)) by done.
  assert (0 <= d s * w s) by (unfold is_uint64 in *; nia).
  rewrite (wrap64_small (d s * w s)) by (unfold is_uint64; lia).
  fold (binary.PutUint64s (concat (count s))).
  rewrite (Read_uint64s_PutUint64s (concat (count s)));
    [| done | unfold make_uint64s; by rewrite length_replicate].
  match goal with
  | |- context [for_upto ?n ?f ?x] =>
      destruct (for_upto_inv
        (fun k st =>
           Legacy.d st = d s /\ Legacy.w st = w s
           /\ Legacy.hasher st = Legacy.hasher f0
           /\ length (Legacy.count st) = Z.to_nat (d s * w s)
           /\ forall i, (i < k)%nat ->
                Legacy.count st !! i = concat (count s) !! i)
        f n x) as (st & Hrun & Hd & Hw & Hh & Hl & Hcells)
  end.
  - cbn. do 3 (split; [done |]).
    split; [apply length_replicate |]. intros i Hi. lia.
  - intros k st0 Hk (Hd & Hw & Hh & Hl & Hcells). unfold index, store.
    destruct (lookup_lt_is_Some_2 (concat (count s)) k) as [v Hv]; [lia |].
    rewrite Hv. cbn.
    destruct (lookup_lt_is_Some_2 (Legacy.count st0) k) as [x Hx]; [lia |].
    rewrite Hx. cbn. eexists. split; [done |]. cbn.
    do 3 (split; [done |]). split; [by rewrite length_insert |].
    intros i Hi. destruct (decide (i = k)) as [->|Hne].
    + rewrite list_lookup_insert_eq by lia. rewrite Hv. f_equal.
      apply wrap64_small. by apply (proj1 (Forall_lookup _ _) Hty k v).
    + rewrite list_lookup_insert_ne by done. apply Hcells. lia.
  - rewrite Hrun. cbn [mbind run_bind]. do 2 f_equal.
    + do 2 f_equal.
      unfold binary.Size_uint64s, binary.Size_uint64. rewrite Hlen.
      rewrite wrap_int64_small by lia. lia.
    + destruct st as [d1 w1 c1 hs1]. cbn in *. subst.
      unfold flatten, LegacyOps.set_hasher. cbn. f_equal.
      apply list_eq. intros i.
      destruct (decide (i < Z.to_nat (d s * w s))%nat) as [Hi|Hi].
      * by apply Hcells.
      * rewrite !lookup_ge_None_2; (done || lia).
Qed.

Lemma Legacy_ReadFrom_encoding_witness :
  LegacyOps.ReadFrom (encoding sketch_counted ++ [] : Buffer)
                     (flatten (one_cell 3))
  = Done (16 + 8 * (d sketch_counted * w sketch_counted), None, [],
          flatten (set_hasher sketch_counted fnv.New64)).
Proof.
  apply (Legacy_ReadFrom_encoding sketch_counted [] (flatten (one_cell 3))).
  - vm_compute. repeat constructor.
  - apply (bool_decide_unpack (well_typed sketch_counted)).
    vm_compute. exact I.
  - vm_compute. reflexivity.
Defined.

(** ** Exact answers *)

Lemma hits_no_collision key wid r (events : list event) :
  1 <= wid ->
  Forall (fun e => e.1 <> key ->
                   location e.1 wid r <> location key wid r) events ->
  hits wid r (Z.to_nat (location key wid r)) events = true_count key events.
Proof.
  intros Hw. pose proof (location_lt key wid r Hw) as Hloc.
  unfold hits, true_count. rewrite Z2Nat.id by lia.
  induction 1 as [|[k a] events Hk Hall IH]; cbn; [done |].
  cbn in Hk. destruct (decide (k = key)) as [->|Hne].
  - rewrite decide_True by done. by rewrite IH.
  - rewrite decide_False by (by apply Hk). exact IH.
Qed.

(** X26: when some row has no collision for a key (no event of another
    key lands on the key's cell of that row), [Estimate] of the key is
    exactly the sum of the amounts given for it. *)
Theorem Estimate_exact (d0 w0 : Z) (events : list event) (key : list byte)
    (r : nat) :
  1 <= d0 < 2 ^ 64 -> 1 <= w0 < 2 ^ 64 ->
  Forall (fun e => 0 <= e.2) events -> total events < 2 ^ 64 ->
  (r < Z.to_nat d0)%nat ->
  Forall (fun e => e.1 <> key ->
                   location e.1 w0 r <> location key w0 r) events ->
  exists s m s',
    Updates events (fresh_sketch d0 w0) = Done s
    /\ Estimate key s = Done (m, s')
    /\ m = true_count key events.
Proof.
  intros Hd Hw Hpos Htot Hr Hfree.
  destruct (Updates_cells events (fresh_sketch d0 w0))
    as (s & Hrun & Hs & Ht & Hds & Hws & Hcells).
  { apply shape_ok_fresh. }
  { apply well_typed_fresh; unfold is_uint64; lia. }
  { cbn. lia. }
  cbn [fresh_sketch d w] in Hds, Hws, Hcells.
  destruct (Estimate_spec key s Hs) as (m & Hest & (r0 & Hr0 & Hm) & Hmin);
    [lia | lia |].
  exists s, m, (set_hasher s (hash_key key)).
  split; [done |]. split; [done |].
  assert (forall k, (k < Z.to_nat d0)%nat ->
            cell (count s) k (location key (w s) k)
            = Done (hits w0 k (Z.to_nat (location key w0 k)) events)) as Hcell.
  { intros k Hk. apply cell_get2. rewrite Hcells, Hws.
    pose proof (location_lt key w0 k ltac:(lia)) as Hloc.
    rewrite get2_fresh by lia. cbn. f_equal.
    destruct (hits_bounds key w0 k events ltac:(lia) Hpos)
      as (H0 & Hlo & Hhi).
    rewrite Z.add_0_l. apply wrap64_small. unfold is_uint64. lia. }
  rewrite Hds in Hr0. rewrite (Hcell r0 Hr0) in Hm. injection Hm as <-.
  destruct (hits_bounds key w0 r0 events ltac:(lia) Hpos) as (_ & Hlo & _).
  pose proof (Hmin r _ (Hcell r Hr) ltac:(lia)) as Hle.
  rewrite (hits_no_collision key w0 r events) in Hle by (done || lia). lia.
Qed.

Lemma Estimate_exact_witness :
  exists s m s',
    Updates [(key_abc, 10); (key_abc, 7)] (fresh_sketch 4 20) = Done s
    /\ Estimate key_abc s = Done (m, s')
    /\ m = true_count key_abc [(key_abc, 10); (key_abc, 7)].
Proof.
  apply (Estimate_exact 4 20 [(key_abc, 10); (key_abc, 7)] key_abc 0).
  - lia.
  - lia.
  - repeat constructor; cbn; lia.
  - vm_compute. reflexivity.
  - vm_compute. lia.
  - repeat constructor; cbn; intros H; by destruct H.
Defined.

(** ** The flat variant with width 0 *)

(** X27: the flat [New] accepts width 0; on the sketch it returns,
    [Update] and [Estimate] of the flat variant panic with a division
    by zero when the depth is at least 1 (and within what can be
    allocated), for every key. *)
Theorem Legacy_zero_width_panics (d0 : Z) (key : list byte) (amount : Z) :
  1 <= d0 <= max_cells ->
  exists s,
    Legacy.New d0 0 = (Some s, None)
    /\ Legacy.d s = d0 /\ Legacy.w s = 0 /\ Legacy.count s = []
    /\ LegacyOps.Update key amount s = Panicked DivideByZero
    /\ LegacyOps.Estimate key s = Panicked DivideByZero.
Proof.
  intros [Hd _]. eexists. split.
  { unfold Legacy.New. rewrite Z.mul_0_r. reflexivity. }
  do 3 (split; [reflexivity |]).
  unfold LegacyOps.Update, LegacyOps.Estimate, LegacyOps.locations,
    LegacyOps.base_hashes, for_upto.
  cbn [Legacy.d Legacy.w LegacyOps.set_hasher].
  destruct (Z.to_nat d0) as [|n] eqn:Hn; [lia |].
  by cbn.
Qed.

Lemma Legacy_zero_width_panics_witness :
  exists s,
    Legacy.New 4 0 = (Some s, None)
    /\ Legacy.d s = 4 /\ Legacy.w s = 0 /\ Legacy.count s = []
    /\ LegacyOps.Update key_abc 1 s = Panicked DivideByZero
    /\ LegacyOps.Estimate key_abc s = Panicked DivideByZero.
Proof.
  apply (Legacy_zero_width_panics 4 key_abc 1). vm_compute.
  split; discriminate.
Defined.

(** ** Merging three sketches *)

(** X28: merging is associative on the counters: for three different
    sketches A, B, C of equal depth and width, A after [A.Merge(B)] and
    [A.Merge(C)] holds the same counters as A after [B.Merge(C)] and
    [A.Merge(B)], overflow or not. *)
Theorem Merge_assoc (pa pb pc : loc) (h : heap) (A B C : CountMinSketch) :
  h !! pa = Some A -> h !! pb = Some B -> h !! pc = Some C ->
  pa <> pb -> pa <> pc -> pb <> pc ->
  d A = d B -> w A = w B -> d B = d C -> w B = w C ->
  shape_ok A -> shape_ok B -> shape_ok C ->
  exists h1 h2 h1' h2' A2 A2',
    Merge pa pb h = Done (None, h1) /\ Merge pa pc h1 = Done (None, h2)
    /\ Merge pb pc h = Done (None, h1') /\ Merge pa pb h1' = Done (None, h2')
    /\ h2 !! pa = Some A2 /\ h2' !! pa = Some A2'
    /\ d A2 = d A2' /\ w A2 = w A2' /\ count A2 = count A2'.
Proof.
  intros Ha Hb Hc Hab Hac Hbc HdAB HwAB HdBC HwBC HsA HsB HsC.
  destruct (Merge_cells pa pb h A B Ha Hb HdAB HwAB HsA HsB)
    as (c1 & Hrun1 & Hm1 & Hc1).
  set (h1 := <[pa := set_count A c1]> h).
  assert (h1 !! pa = Some (set_count A c1)) as Ha1
    by apply lookup_insert_eq.
  assert (h1 !! pc = Some C) as Hc1'
    by (unfold h1; by rewrite lookup_insert_ne).
  destruct (Merge_cells pa pc h1 (set_count A c1) C Ha1 Hc1')
    as (c2 & Hrun2 & Hm2 & Hc2);
    [cbn; congruence | cbn; congruence | exact Hm1 | done |].
  destruct (Merge_cells pb pc h B C Hb Hc HdBC HwBC HsB HsC)
    as (c1' & Hrun1' & Hm1' & Hc1'').
  set (h1' := <[pb := set_count B c1']> h).
  assert (h1' !! pa = Some A) as Ha1'
    by (unfold h1'; by rewrite lookup_insert_ne).
  assert (h1' !! pb = Some (set_count B c1')) as Hb1'
    by apply lookup_insert_eq.
  destruct (Merge_cells pa pb h1' A (set_count B c1') Ha1' Hb1')
    as (c2' & Hrun2' & Hm2' & Hc2');
    [done | done | done | exact Hm1' |].
  cbn [set_count d w count] in *.
  eexists _, _, _, _, _, _.
  split; [exact Hrun1 |]. split; [exact Hrun2 |].
  split; [exact Hrun1' |]. split; [exact Hrun2' |].
  split; [apply lookup_insert_eq |]. split; [apply lookup_insert_eq |].
  split; [done |]. split; [done |]. cbn.
  apply (matrix_ext _ _ _ _ Hm2 Hm2'). intros r c.
  rewrite Hc2, Hc2'. unfold merged_cell. rewrite Hc1, Hc1''.
  unfold merged_cell.
  destruct (get2 (count A) r c) as [x|], (get2 (count B) r c) as [y|],
    (get2 (count C) r c) as [z|]; cbn; try done.
  rewrite wrap64_add_l, wrap64_add_r. do 2 f_equal; lia.
Qed.

Lemma Merge_assoc_witness :
  exists h1 h2 h1' h2' A2 A2',
    Merge 0%nat 1%nat heap_three = Done (None, h1)
    /\ Merge 0%nat 2%nat h1 = Done (None, h2)
    /\ Merge 1%nat 2%nat heap_three = Done (None, h1')
    /\ Merge 0%nat 1%nat h1' = Done (None, h2')
    /\ h2 !! 0%nat = Some A2 /\ h2' !! 0%nat = Some A2'
    /\ d A2 = d A2' /\ w A2 = w A2' /\ count A2 = count A2'.
Proof.
  apply (Merge_assoc 0%nat 1%nat 2%nat heap_three
           (one_cell (2 ^ 64 - 1)) (one_cell 1) (one_cell 5)).
  - vm_compute. reflexivity.
  - vm_compute. reflexivity.
  - vm_compute. reflexivity.
  - lia.
  - lia.
  - lia.
  - reflexivity.
  - reflexivity.
  - reflexivity.
  - reflexivity.
  - vm_compute. repeat constructor.
  - vm_compute. repeat constructor.
  - vm_compute. repeat constructor.
Defined.
